(** * Verification of the route scanner and scoring rules of fastapi_auditor.py

    Shallow embedding of [analyze_routes] (per file), [extract_string_arg],
    [has_kwarg], [score_route] and the aggregation done by
    [analyze_command].  Text is modelled as a list of ASCII characters; the
    regular expressions of the module are written out as the matchers they
    denote (Python [re] semantics restricted to ASCII text). *)

From Stdlib Require Import Ascii String List ZArith Bool Lia Sorted.
Import ListNotations.
Open Scope Z_scope.

Definition text := list ascii.

(** ** Character classes *)

(** [\s] and [str.isspace] on ASCII: \t \n \v \f \r, the separators
    \x1c-\x1f and the space. *)
Definition is_space (c : ascii) : bool :=
  let n := nat_of_ascii c in
  ((9 <=? n) && (n <=? 13))%nat || ((28 <=? n) && (n <=? 32))%nat.

Definition is_digit (c : ascii) : bool :=
  let n := nat_of_ascii c in ((48 <=? n) && (n <=? 57))%nat.

(** [\w] on ASCII. *)
Definition is_word (c : ascii) : bool :=
  let n := nat_of_ascii c in
  ((48 <=? n) && (n <=? 57))%nat || ((65 <=? n) && (n <=? 90))%nat
  || ((97 <=? n) && (n <=? 122))%nat || (n =? 95)%nat.

(** The class of the two quote characters (double and single). *)
Definition is_quote (c : ascii) : bool :=
  (c =? "034"%char)%char || (c =? "039"%char)%char.

Definition to_lower (c : ascii) : ascii :=
  let n := nat_of_ascii c in
  if ((65 <=? n) && (n <=? 90))%nat then ascii_of_nat (n + 32) else c.

Definition to_upper (c : ascii) : ascii :=
  let n := nat_of_ascii c in
  if ((97 <=? n) && (n <=? 122))%nat then ascii_of_nat (n - 32) else c.

(** ** String helpers *)

(** Greedy [\s*]. *)
Fixpoint drop_ws (s : text) : text :=
  match s with
  | c :: r => if is_space c then drop_ws r else s
  | [] => []
  end.

(** [str.strip()] with no argument. *)
Definition strip (s : text) : text := rev (drop_ws (rev (drop_ws s))).

(** Python slice [s[a:b]] for [0 <= a] and [0 <= b]. *)
Definition slice (s : text) (a b : nat) : text := firstn (b - a) (skipn a s).

(** [s] starts with the literal [p]: the rest after it. *)
Fixpoint strip_prefix (p s : text) : option text :=
  match p, s with
  | [], _ => Some s
  | c :: p', d :: s' => if (c =? d)%char then strip_prefix p' s' else None
  | _ :: _, [] => None
  end.

Definition lit (s : string) : text := list_ascii_of_string s.

(** Python source text written with a backquote standing for the double
    quote character. *)
Definition py (s : string) : text :=
  map (fun c => if (c =? "`")%char then "034"%char else c) (list_ascii_of_string s).

(** ** Route records *)

Record route := mk_route {
  method : text;
  path : text;
  versioned : bool;
  has_response_model : bool;
  has_tags : bool;
  has_summary : bool;
  has_description : bool;
  decorator_args : text
}.

(** The dictionary after [score_route] added its two keys. *)
Record scored_route := mk_scored {
  base : route;
  score : Z;
  penalties : list text
}.

(** ** Scoring *)

Definition msg_versioning := lit "Missing API versioning (e.g., /v1/, /v2/)".
Definition msg_response_model := lit "Missing response_model (critical for typing & docs)".
Definition msg_tags := lit "Missing tags= for OpenAPI grouping".
Definition msg_summary := lit "Missing summary= for endpoint title".
Definition msg_description := lit "Missing description= for details".

(** One [if not route[...]] block of [score_route]: the running score and
    penalty list are threaded through. *)
Definition penalize (ok : bool) (pts : Z) (msg : text)
    (st : Z * list text) : Z * list text :=
  let '(sc, ps) := st in
  if negb ok then (sc - pts, ps ++ [msg]) else (sc, ps).

Definition score_route (r : route) : scored_route :=
  let st := (100, []) in
  let st := penalize (versioned r) 20 msg_versioning st in
  let st := penalize (has_response_model r) 25 msg_response_model st in
  let st := penalize (has_tags r) 10 msg_tags st in
  let st := penalize (has_summary r) 10 msg_summary st in
  let st := penalize (has_description r) 5 msg_description st in
  let '(sc, ps) := st in
  mk_scored r (Z.max sc 30) ps.

(** ** The regular expressions *)

(** Greedy run of non-quote characters (the class of everything but the
    two quotes, repeated): the run and what follows it. *)
Fixpoint span_nq (s : text) : text * text :=
  match s with
  | c :: r => if is_quote c then ([], s) else let '(v, rest) := span_nq r in (c :: v, rest)
  | [] => ([], [])
  end.

(** A quote, a non-empty run of non-quote characters (group 1) and a
    quote, anchored at the start of [s]. *)
Definition quoted_at (s : text) : option text :=
  match s with
  | q :: r =>
      if is_quote q then
        match span_nq r with
        | ([], _) => None
        | (v, _ :: _) => Some v
        | (_, []) => None
        end
      else None
  | [] => None
  end.

(** The pattern of [extract_string_arg]: [keyword], [\s*], [=], [\s*]
    and a quoted literal, anchored at the start of [s]. *)
Definition kw_lit_at (kw s : text) : option text :=
  match strip_prefix kw s with
  | Some r =>
      match drop_ws r with
      | c :: r2 => if (c =? "=")%char then quoted_at (drop_ws r2) else None
      | [] => None
      end
  | None => None
  end.

(** [re.search] of that pattern: leftmost start position wins. *)
Fixpoint search_kw_lit (kw s : text) : option text :=
  match kw_lit_at kw s with
  | Some v => Some v
  | None => match s with [] => None | _ :: s' => search_kw_lit kw s' end
  end.

(** The fallback search: [^], [\s*] and a quoted literal. *)
Definition bare_lit (s : text) : option text := quoted_at (drop_ws s).

Definition extract_string_arg (arg_str keyword : text) : option text :=
  match search_kw_lit keyword arg_str with
  | Some v => Some v
  | None => if list_eq_dec ascii_dec keyword (lit "path") then bare_lit arg_str else None
  end.

(** The pattern of [has_kwarg]: [keyword], [\s*] and [=], anchored. *)
Definition kwarg_at (kw s : text) : bool :=
  match strip_prefix kw s with
  | Some r => match drop_ws r with c :: _ => (c =? "=")%char | [] => false end
  | None => false
  end.

Fixpoint search_kwarg (kw s : text) : bool :=
  kwarg_at kw s || match s with [] => false | _ :: s' => search_kwarg kw s' end.

Definition has_kwarg (arg_str keyword : text) : bool := search_kwarg keyword arg_str.

(** [VERSION_PATTERN]: a slash, [v] ignoring case and [\d+], anchored
    (one digit decides a match). *)
Definition version_at (s : text) : bool :=
  match s with
  | sl :: c :: d :: _ => (sl =? "/")%char && (to_lower c =? "v")%char && is_digit d
  | _ => false
  end.

Fixpoint version_search (s : text) : bool :=
  version_at s || match s with [] => false | _ :: s' => version_search s' end.

(** ** [ROUTE_PATTERN] and [finditer] *)

Definition verbs : list text :=
  map lit ["get"; "post"; "put"; "patch"; "delete"; "options"; "head"; "trace"; "route"]%string.

(** [p] (lower case) is a prefix of [s] ignoring case. *)
Fixpoint ci_prefix (p s : text) : option text :=
  match p, s with
  | [], _ => Some s
  | c :: p', d :: s' => if (c =? to_lower d)%char then ci_prefix p' s' else None
  | _ :: _, [] => None
  end.

Fixpoint span_word (s : text) : text * text :=
  match s with
  | c :: r => if is_word c then let '(w, rest) := span_word r in (c :: w, rest) else ([], s)
  | [] => ([], [])
  end.

(** The alternation [(get|post|...|route)\s*\(]: group 1 and the text after
    the parenthesis. *)
Fixpoint verb_paren (vs : list text) (s : text) : option (text * text) :=
  match vs with
  | [] => None
  | w :: vs' =>
      match ci_prefix w s with
      | Some r =>
          match drop_ws r with
          | c :: r' => if (c =? "(")%char then Some (firstn (length w) s, r')
                       else verb_paren vs' s
          | [] => verb_paren vs' s
          end
      | None => verb_paren vs' s
      end
  end.

(** [@\w+\.(verb)\s*\(] anchored at [s]: group 1 and the match length. *)
Definition route_at (s : text) : option (text * nat) :=
  match s with
  | at_ :: r =>
      if (at_ =? "@")%char then
        match span_word r with
        | ([], _) => None
        | (_, dot :: r2) =>
            if (dot =? ".")%char then
              match verb_paren verbs r2 with
              | Some (g, rest) => Some (g, length s - length rest)%nat
              | None => None
              end
            else None
        | (_, []) => None
        end
      else None
  | [] => None
  end.

(** [finditer]: each match as (group 1, [match.end()]); scanning resumes at
    the end of a match.  [fuel] bounds the number of positions visited. *)
Fixpoint finditer_from (fuel : nat) (s : text) (pos : nat) : list (text * nat) :=
  match fuel with
  | O => []
  | S f =>
      match route_at s with
      | Some (g, n) => (g, pos + n)%nat :: finditer_from f (skipn n s) (pos + n)
      | None => match s with [] => [] | _ :: s' => finditer_from f s' (S pos) end
      end
  end.

Definition route_matches (content : text) : list (text * nat) :=
  finditer_from (S (length content)) content 0.

(** ** The argument scan of [analyze_routes] *)

(** The [while i < len(content) and paren_depth > 0] loop.  [None] stands
    for an exception (an out-of-range [content[i]]) or for the loop not
    having finished within [fuel] iterations. *)
Fixpoint scan_loop (fuel : nat) (content : text) (i depth : nat) : option (nat * nat) :=
  match fuel with
  | O => None
  | S f =>
      if ((i <? length content) && (0 <? depth))%nat then
        match nth_error content i with
        | Some c =>
            let depth' := if (c =? "(")%char then S depth
                          else if (c =? ")")%char then (depth - 1)%nat else depth in
            scan_loop f content (S i) depth'
        | None => None
        end
      else Some (i, depth)
  end.

(** The body of the [finditer] loop for one match ([start_pos] is
    [match.end()]); [file] is left out.  A match is at least four
    characters long, so [start_pos >= 1] and [i - 1] never needs Python's
    negative indexing. *)
Definition analyze_site (content : text) (site : text * nat) : option route :=
  let '(g, start_pos) := site in
  match scan_loop (S (length content - start_pos)) content start_pos 1 with
  | Some (i, _) =>
      let decorator_args := strip (slice content start_pos (i - 1)) in
      let p := match extract_string_arg decorator_args (lit "path") with
               | Some ((_ :: _) as v) => v
               | _ => lit "UNKNOWN"
               end in
      Some (mk_route (map to_upper g) p (version_search p)
              (has_kwarg decorator_args (lit "response_model"))
              (has_kwarg decorator_args (lit "tags"))
              (has_kwarg decorator_args (lit "summary"))
              (has_kwarg decorator_args (lit "description"))
              decorator_args)
  | None => None
  end.

Fixpoint all_sites (content : text) (sites : list (text * nat)) : option (list route) :=
  match sites with
  | [] => Some []
  | s :: ss =>
      match analyze_site content s, all_sites content ss with
      | Some r, Some rs => Some (r :: rs)
      | _, _ => None
      end
  end.

(** The routes one file contributes to [analyze_routes]. *)
Definition analyze_file (content : text) : option (list route) :=
  all_sites content (route_matches content).

(** ** Readings of the rubric table used by the statements *)

(** Sum of the penalties whose condition is violated. *)
Definition penalty_sum (r : route) : Z :=
  (if versioned r then 0 else 20) + (if has_response_model r then 0 else 25)
  + (if has_tags r then 0 else 10) + (if has_summary r then 0 else 10)
  + (if has_description r then 0 else 5).

(** The rubric table in its fixed order: (condition violated, description). *)
Definition rubric (r : route) : list (bool * text) :=
  [(negb (versioned r), msg_versioning);
   (negb (has_response_model r), msg_response_model);
   (negb (has_tags r), msg_tags);
   (negb (has_summary r), msg_summary);
   (negb (has_description r), msg_description)].

Definition same_flags (r r' : route) : Prop :=
  versioned r = versioned r' /\ has_response_model r = has_response_model r'
  /\ has_tags r = has_tags r' /\ has_summary r = has_summary r'
  /\ has_description r = has_description r'.

(** [score_route] with the [max(score, 30)] clamp removed. *)
Definition score_route_unclamped (r : route) : scored_route :=
  let st := (100, []) in
  let st := penalize (versioned r) 20 msg_versioning st in
  let st := penalize (has_response_model r) 25 msg_response_model st in
  let st := penalize (has_tags r) 10 msg_tags st in
  let st := penalize (has_summary r) 10 msg_summary st in
  let st := penalize (has_description r) 5 msg_description st in
  let '(sc, ps) := st in
  mk_scored r sc ps.

Ltac case_flags r :=
  destruct r as [? ? [] [] [] [] [] ?]; cbn.

Lemma score_route_base (r : route) : base (score_route r) = r.
Proof. case_flags r; reflexivity. Qed.

(** C1: the score is [max(100 - penalties, 30)], lies in [30, 100], depends
    only on the five flags; the scenario with summary and description
    missing scores 85 with exactly those two penalties. *)
Theorem score_route_spec :
  (forall r : route,
      score (score_route r) = Z.max (100 - penalty_sum r) 30
      /\ 30 <= score (score_route r) <= 100)
  /\ (forall r r' : route, same_flags r r' ->
      score (score_route r) = score (score_route r')
      /\ penalties (score_route r) = penalties (score_route r'))
  /\ (forall m p a,
      score (score_route (mk_route m p true true true false false a)) = 85
      /\ penalties (score_route (mk_route m p true true true false false a))
         = [msg_summary; msg_description]).
Proof.
  split; [|split].
  - intro r; unfold penalty_sum; case_flags r; lia.
  - intros r r' (H1 & H2 & H3 & H4 & H5).
    destruct r as [? ? v rm t s d ?], r' as [? ? v' rm' t' s' d' ?]; cbn in *.
    subst; destruct v', rm', t', s', d'; split; reflexivity.
  - intros; split; reflexivity.
Qed.

(** C6: the penalties are the descriptions of the violated rows of the
    rubric, in table order; the argument text [/legacy] (quoted, no
    keywords) gets all five of them and the score 30. *)
Theorem score_route_penalties_in_table_order :
  (forall r : route,
      penalties (score_route r) = map snd (filter fst (rubric r)))
  /\ exists r,
      analyze_file (py "@app.get(`/legacy`)") = Some [r]
      /\ decorator_args r = py "`/legacy`"
      /\ score (score_route r) = 30
      /\ penalties (score_route r)
         = [msg_versioning; msg_response_model; msg_tags; msg_summary; msg_description].
Proof.
  split.
  - intro r; case_flags r; reflexivity.
  - eexists; split; [vm_compute; reflexivity|].
    split; [|split]; vm_compute; reflexivity.
Qed.

(** C9: the floor of 30 never binds: [score_route] equals the variant
    without the clamp on every record. *)
Theorem score_route_clamp_never_binds :
  forall r : route, score_route r = score_route_unclamped r.
Proof.
  intro r; case_flags r; reflexivity.
Qed.

(** ** Textual readings of the patterns *)

Definition all_space (w : text) : Prop := Forall (fun c => is_space c = true) w.
Definition no_quote (v : text) : Prop := Forall (fun c => is_quote c = false) v.

(** [s] begins with a quoted literal whose content is [v] (non-empty,
    without quotes). *)
Definition QuotedLit (s v : text) : Prop :=
  exists q1 q2 rest, s = q1 :: v ++ q2 :: rest
    /\ is_quote q1 = true /\ is_quote q2 = true /\ v <> [] /\ no_quote v.

(** A [kw=] assignment of a quoted literal [v] occurs somewhere in [t]. *)
Definition KwLit (kw t v : text) : Prop :=
  exists pre ws1 ws2 s, t = pre ++ kw ++ ws1 ++ "="%char :: ws2 ++ s
    /\ all_space ws1 /\ all_space ws2 /\ QuotedLit s v.

(** [kw], optional whitespace and [=] occur somewhere in [t]. *)
Definition KwAssign (kw t : text) : Prop :=
  exists pre ws rest, t = pre ++ kw ++ ws ++ "="%char :: rest /\ all_space ws.

(** A slash, [v] or [V], and a digit occur somewhere in [t]. *)
Definition VersionSeg (t : text) : Prop :=
  exists pre c d rest, t = pre ++ "/"%char :: c :: d :: rest
    /\ (c = "v"%char \/ c = "V"%char) /\ is_digit d = true.

(** The path resolution order: a [path=] literal, else a quoted literal at
    the very start of the text, else the sentinel. *)
Definition PathResolved (t p : text) : Prop :=
  ((exists v, KwLit (lit "path") t v) /\ KwLit (lit "path") t p)
  \/ ((forall v, ~ KwLit (lit "path") t v) /\ QuotedLit t p)
  \/ ((forall v, ~ KwLit (lit "path") t v) /\ (forall v, ~ QuotedLit t v)
      /\ p = lit "UNKNOWN").

(** ** Lemmas on the matchers *)

Lemma drop_ws_spec (s : text) :
  exists ws, s = ws ++ drop_ws s /\ all_space ws
    /\ match drop_ws s with c :: _ => is_space c = false | [] => True end.
Proof.
  induction s as [|c s IH]; cbn.
  - exists []; repeat split; constructor.
  - destruct (is_space c) eqn:E.
    + destruct IH as (ws & H1 & H2 & H3).
      exists (c :: ws); cbn; rewrite <- H1; repeat split; auto; constructor; auto.
    + exists []; repeat split; cbn; auto; constructor.
Qed.

Lemma drop_ws_app (ws s : text) : all_space ws -> drop_ws (ws ++ s) = drop_ws s.
Proof. induction 1 as [|c ws Hc _ IH]; cbn; [reflexivity | now rewrite Hc]. Qed.

Lemma drop_ws_nonspace (c : ascii) (s : text) :
  is_space c = false -> drop_ws (c :: s) = c :: s.
Proof. intro H; cbn; now rewrite H. Qed.

Lemma strip_prefix_app (p s : text) : strip_prefix p (p ++ s) = Some s.
Proof. induction p as [|c p IH]; cbn; [reflexivity | now rewrite Ascii.eqb_refl]. Qed.

Lemma strip_prefix_some (p s r : text) : strip_prefix p s = Some r -> s = p ++ r.
Proof.
  revert s; induction p as [|c p IH]; intros [|d s]; cbn; try congruence.
  destruct (c =? d)%char eqn:E; [|congruence].
  apply Ascii.eqb_eq in E; subst; intro H; f_equal; auto.
Qed.

Lemma span_nq_spec (s v rest : text) :
  span_nq s = (v, rest) ->
  s = v ++ rest /\ no_quote v
  /\ match rest with c :: _ => is_quote c = true | [] => True end.
Proof.
  revert v rest; induction s as [|c s IH]; intros v rest; cbn.
  - intro H; inversion H; subst; repeat split; constructor.
  - destruct (is_quote c) eqn:Eq.
    + intro H; inversion H; subst; repeat split; auto; constructor.
    + destruct (span_nq s) as [v' r'] eqn:E; intro H; inversion H; subst.
      destruct (IH v' rest eq_refl) as (H1 & H2 & H3).
      subst; repeat split; auto; constructor; auto.
Qed.

Lemma span_nq_app (v r : text) (q : ascii) :
  no_quote v -> is_quote q = true -> span_nq (v ++ q :: r) = (v, q :: r).
Proof.
  intros Hv Hq; induction Hv as [|c v Hc _ IH]; cbn.
  - now rewrite Hq.
  - now rewrite Hc, IH.
Qed.

Lemma quoted_at_iff (s v : text) : quoted_at s = Some v <-> QuotedLit s v.
Proof.
  split.
  - destruct s as [|q1 r]; cbn; [discriminate|].
    destruct (is_quote q1) eqn:E1; [|discriminate].
    destruct (span_nq r) as [w rest] eqn:E.
    destruct (span_nq_spec _ _ _ E) as (H1 & H2 & H3).
    destruct w as [|c w]; [discriminate|].
    destruct rest as [|q2 rest]; intro H; inversion H; subst.
    exists q1, q2, rest; repeat split; auto; discriminate.
  - intros (q1 & q2 & rest & -> & H1 & H2 & H3 & H4).
    cbn; rewrite H1, (span_nq_app _ _ _ H4 H2).
    destruct v; [congruence | reflexivity].
Qed.

Lemma QuotedLit_head (s v : text) :
  QuotedLit s v -> exists q r, s = q :: r /\ is_quote q = true.
Proof. intros (q1 & q2 & rest & -> & H1 & _); eauto. Qed.

Lemma quote_not_space (q : ascii) : is_quote q = true -> is_space q = false.
Proof.
  unfold is_quote; intro H; apply orb_true_iff in H.
  destruct H as [H|H]; apply Ascii.eqb_eq in H; subst; reflexivity.
Qed.

Lemma kw_lit_at_iff (kw s v : text) :
  kw_lit_at kw s = Some v <->
  exists ws1 ws2 s', s = kw ++ ws1 ++ "="%char :: ws2 ++ s'
    /\ all_space ws1 /\ all_space ws2 /\ QuotedLit s' v.
Proof.
  unfold kw_lit_at; split.
  - destruct (strip_prefix kw s) as [r|] eqn:E; [|discriminate].
    apply strip_prefix_some in E; subst s.
    destruct (drop_ws_spec r) as (ws1 & Hr & Hws1 & _).
    destruct (drop_ws r) as [|c r2]; [discriminate|].
    destruct (c =? "=")%char eqn:Ec; [|discriminate].
    apply Ascii.eqb_eq in Ec; subst c.
    destruct (drop_ws_spec r2) as (ws2 & Hr2 & Hws2 & _).
    intro H; apply quoted_at_iff in H.
    exists ws1, ws2, (drop_ws r2); rewrite Hr, Hr2 at 1; repeat split; auto.
  - intros (ws1 & ws2 & s' & -> & H1 & H2 & H3).
    rewrite strip_prefix_app, drop_ws_app by exact H1.
    rewrite drop_ws_nonspace by reflexivity.
    cbv beta iota; rewrite Ascii.eqb_refl, drop_ws_app by exact H2.
    destruct (QuotedLit_head _ _ H3) as (q & r & -> & Hq).
    rewrite drop_ws_nonspace by (now apply quote_not_space).
    now apply quoted_at_iff.
Qed.

Lemma search_kw_lit_some (kw t v : text) :
  search_kw_lit kw t = Some v -> exists pre suf, t = pre ++ suf /\ kw_lit_at kw suf = Some v.
Proof.
  induction t as [|c t IH]; cbn; destruct (kw_lit_at kw _) as [w|] eqn:E; intro H.
  - inversion H; subst; exists [], []; auto.
  - discriminate.
  - inversion H; subst; exists [], (c :: t); auto.
  - destruct (IH H) as (pre & suf & -> & H'); exists (c :: pre), suf; auto.
Qed.

Lemma search_kw_lit_none (kw t : text) :
  search_kw_lit kw t = None -> forall pre suf, t = pre ++ suf -> kw_lit_at kw suf = None.
Proof.
  induction t as [|c t IH]; cbn; destruct (kw_lit_at kw _) eqn:E; intros H pre suf Ht;
    try discriminate.
  - destruct pre; [|discriminate]; cbn in Ht; subst; exact E.
  - destruct pre as [|c' pre]; cbn in Ht; [subst; exact E|].
    inversion Ht; subst; eapply IH; eauto.
Qed.

Lemma search_kw_lit_KwLit (kw t v : text) : search_kw_lit kw t = Some v -> KwLit kw t v.
Proof.
  intro H; destruct (search_kw_lit_some _ _ _ H) as (pre & suf & -> & H').
  apply kw_lit_at_iff in H' as (ws1 & ws2 & s' & -> & H1 & H2 & H3).
  exists pre, ws1, ws2, s'; auto.
Qed.

Lemma search_kw_lit_no_KwLit (kw t : text) :
  search_kw_lit kw t = None -> forall v, ~ KwLit kw t v.
Proof.
  intros H v (pre & ws1 & ws2 & s & Ht & H1 & H2 & H3).
  assert (Hs : kw_lit_at kw (kw ++ ws1 ++ "="%char :: ws2 ++ s) = Some v)
    by (apply kw_lit_at_iff; eauto 7).
  rewrite (search_kw_lit_none _ _ H pre _ Ht) in Hs; discriminate.
Qed.

Lemma kwarg_at_iff (kw s : text) :
  kwarg_at kw s = true <->
  exists ws rest, s = kw ++ ws ++ "="%char :: rest /\ all_space ws.
Proof.
  unfold kwarg_at; split.
  - destruct (strip_prefix kw s) as [r|] eqn:E; [|discriminate].
    apply strip_prefix_some in E; subst s.
    destruct (drop_ws_spec r) as (ws & Hr & Hws & _).
    destruct (drop_ws r) as [|c rest] eqn:Ed; [discriminate|].
    intro Hc; apply Ascii.eqb_eq in Hc; subst c.
    exists ws, rest; rewrite Hr; auto.
  - intros (ws & rest & -> & Hws).
    rewrite strip_prefix_app, drop_ws_app by exact Hws.
    rewrite drop_ws_nonspace by reflexivity; apply Ascii.eqb_refl.
Qed.

Lemma search_kwarg_iff (kw t : text) :
  search_kwarg kw t = true <-> exists pre suf, t = pre ++ suf /\ kwarg_at kw suf = true.
Proof.
  induction t as [|c t IH]; cbn; rewrite orb_true_iff; split.
  - intros [H|H]; [exists [], []; auto | discriminate].
  - intros (pre & suf & Ht & H); left.
    destruct pre; [cbn in Ht; subst; exact H | discriminate].
  - intros [H|H]; [exists [], (c :: t); auto|].
    apply IH in H as (pre & suf & -> & H); exists (c :: pre), suf; auto.
  - intros (pre & suf & Ht & H).
    destruct pre as [|c' pre]; cbn in Ht; [left; subst; exact H|].
    inversion Ht; subst; right; apply IH; eauto.
Qed.

Lemma has_kwarg_iff (t kw : text) : has_kwarg t kw = true <-> KwAssign kw t.
Proof.
  unfold has_kwarg, KwAssign; rewrite search_kwarg_iff; split.
  - intros (pre & suf & -> & H); apply kwarg_at_iff in H as (ws & rest & -> & Hws).
    exists pre, ws, rest; auto.
  - intros (pre & ws & rest & -> & Hws); exists pre, (kw ++ ws ++ "="%char :: rest).
    split; [reflexivity|]; apply kwarg_at_iff; eauto.
Qed.

Lemma to_lower_v (c : ascii) : to_lower c = "v"%char <-> c = "v"%char \/ c = "V"%char.
Proof.
  destruct c as [[] [] [] [] [] [] [] []]; vm_compute;
    split; (intros [H|H] || intro H); (discriminate H || auto).
Qed.

Lemma version_at_iff (s : text) :
  version_at s = true <->
  exists c d rest, s = "/"%char :: c :: d :: rest
    /\ (c = "v"%char \/ c = "V"%char) /\ is_digit d = true.
Proof.
  split.
  - destruct s as [|sl [|c [|d rest]]]; cbn; try discriminate.
    rewrite !andb_true_iff; intros ((H1 & H2) & H3).
    apply Ascii.eqb_eq in H1, H2; subst sl; apply to_lower_v in H2.
    exists c, d, rest; auto.
  - intros (c & d & rest & -> & Hc & Hd); cbn.
    apply to_lower_v in Hc; rewrite Hc, Hd; reflexivity.
Qed.

Lemma version_search_iff (t : text) : version_search t = true <-> VersionSeg t.
Proof.
  unfold VersionSeg; induction t as [|x t IH]; cbn [version_search]; rewrite orb_true_iff.
  - split; [intros [H|H]; discriminate|].
    intros (pre & c & d & rest & Ht & _); destruct pre; discriminate.
  - split.
    + intros [H|H].
      * apply version_at_iff in H as (c & d & rest & Ht & Hc & Hd).
        exists [], c, d, rest; auto.
      * apply IH in H as (pre & c & d & rest & -> & Hc & Hd).
        exists (x :: pre), c, d, rest; auto.
    + intros (pre & c & d & rest & Ht & Hc & Hd).
      destruct pre as [|y pre]; cbn in Ht.
      * left; apply version_at_iff; rewrite Ht; exists c, d, rest; auto.
      * inversion Ht; subst; right; apply IH; exists pre, c, d, rest; auto.
Qed.

Lemma drop_ws_snoc (l : text) (c : ascii) :
  is_space c = false -> exists l', drop_ws (l ++ [c]) = l' ++ [c].
Proof.
  intro Hc; induction l as [|x l IH]; cbn.
  - rewrite Hc; exists []; reflexivity.
  - destruct (is_space x); [exact IH | exists (x :: l); reflexivity].
Qed.

(** A stripped text does not start with whitespace. *)
Lemma drop_ws_strip (s : text) : drop_ws (strip s) = strip s.
Proof.
  unfold strip; destruct (drop_ws_spec s) as (_ & _ & _ & Hh).
  destruct (drop_ws s) as [|c r]; [reflexivity|].
  cbn [rev]; destruct (drop_ws_snoc (rev r) c Hh) as (l' & ->).
  rewrite rev_app_distr; cbn; now rewrite Hh.
Qed.

Lemma analyze_site_some (content g : text) (sp : nat) (r : route) :
  analyze_site content (g, sp) = Some r ->
  exists i d, scan_loop (S (length content - sp)) content sp 1 = Some (i, d)
    /\ decorator_args r = strip (slice content sp (i - 1))
    /\ path r = match extract_string_arg (decorator_args r) (lit "path") with
                | Some ((_ :: _) as v) => v
                | _ => lit "UNKNOWN"
                end
    /\ versioned r = version_search (path r)
    /\ has_response_model r = has_kwarg (decorator_args r) (lit "response_model")
    /\ has_tags r = has_kwarg (decorator_args r) (lit "tags")
    /\ has_summary r = has_kwarg (decorator_args r) (lit "summary")
    /\ has_description r = has_kwarg (decorator_args r) (lit "description")
    /\ method r = map to_upper g.
Proof.
  unfold analyze_site.
  destruct (scan_loop _ content sp 1) as [[i d]|]; intro H; inversion H; subst.
  exists i, d; cbn; repeat split; reflexivity.
Qed.

Lemma QuotedLit_nonempty (s v : text) : QuotedLit s v -> v <> [].
Proof. intros (q1 & q2 & rest & _ & _ & _ & H & _); exact H. Qed.

Lemma KwLit_nonempty (kw t v : text) : KwLit kw t v -> v <> [].
Proof. intros (pre & ws1 & ws2 & s & _ & _ & _ & H); exact (QuotedLit_nonempty _ _ H). Qed.

(** A small file used to exercise the theorems. *)
Definition demo_content : text :=
  py "@app.get(`/v1/items`, response_model=Item, tags=[`items`])".

(** The first route a file contributes (a placeholder when there is none). *)
Definition first_route (content : text) : route :=
  match analyze_file content with
  | Some (r :: _) => r
  | _ => mk_route [] [] false false false false false []
  end.

Definition demo_route : route := first_route demo_content.

(** C3: the path of every extracted declaration, whatever its verb
    (the generic [route] form included), is the value of a [path=]
    literal assignment if one occurs, else the quoted literal at the very
    start of the argument text, else [UNKNOWN]. *)
Theorem analyze_site_path_resolution (content g : text) (sp : nat) (r : route) :
  analyze_site content (g, sp) = Some r -> PathResolved (decorator_args r) (path r).
Proof.
  intro H; destruct (analyze_site_some _ _ _ _ H)
    as (i & d & _ & Ha & Hp & _).
  unfold PathResolved; rewrite Hp; clear Hp.
  assert (Hd : drop_ws (decorator_args r) = decorator_args r)
    by (rewrite Ha; apply drop_ws_strip).
  unfold extract_string_arg.
  destruct (search_kw_lit (lit "path") (decorator_args r)) as [v|] eqn:E.
  - apply search_kw_lit_KwLit in E.
    destruct v as [|c v]; [destruct (KwLit_nonempty _ _ _ E eq_refl)|].
    left; split; eauto.
  - pose proof (search_kw_lit_no_KwLit _ _ E) as Hn.
    destruct (list_eq_dec ascii_dec (lit "path") (lit "path")) as [_|Hne];
      [|destruct (Hne eq_refl)].
    unfold bare_lit; rewrite Hd.
    destruct (quoted_at (decorator_args r)) as [v|] eqn:Eq.
    + apply quoted_at_iff in Eq.
      destruct v as [|c v]; [destruct (QuotedLit_nonempty _ _ Eq eq_refl)|].
      right; left; auto.
    + right; right; repeat split; auto.
      intros v Hv; apply quoted_at_iff in Hv; congruence.
Qed.

Lemma analyze_site_path_resolution_witness :
  analyze_site demo_content (lit "get", 9%nat) = Some demo_route
  /\ PathResolved (decorator_args demo_route) (path demo_route).
Proof.
  split; [vm_compute; reflexivity|].
  apply (analyze_site_path_resolution demo_content (lit "get") 9%nat demo_route).
  vm_compute; reflexivity.
Defined.

(** C4: the versioning flag is true exactly when the path contains a slash,
    [v] or [V], and a digit; checked on [/v1/users], [/v12/items],
    [/users] and the sentinel. *)
Theorem versioned_iff_version_segment :
  (forall p : text, version_search p = true <-> VersionSeg p)
  /\ (forall (content g : text) (sp : nat) (r : route),
        analyze_site content (g, sp) = Some r ->
        (versioned r = true <-> VersionSeg (path r)))
  /\ version_search (lit "/v1/users") = true
  /\ version_search (lit "/v12/items") = true
  /\ version_search (lit "/users") = false
  /\ version_search (lit "UNKNOWN") = false.
Proof.
  split; [exact version_search_iff|].
  split; [|repeat split; reflexivity].
  intros content g sp r H.
  destruct (analyze_site_some _ _ _ _ H) as (i & d & _ & _ & _ & Hv & _).
  rewrite Hv; apply version_search_iff.
Qed.

Lemma versioned_iff_version_segment_witness :
  analyze_site demo_content (lit "get", 9%nat) = Some demo_route
  /\ (versioned demo_route = true <-> VersionSeg (path demo_route)).
Proof.
  split; [vm_compute; reflexivity|].
  apply (proj1 (proj2 versioned_iff_version_segment) demo_content (lit "get") 9%nat).
  vm_compute; reflexivity.
Defined.

(** C5: each of the four keyword flags is true exactly when its name,
    optional whitespace and [=] occur somewhere in the argument text. *)
Theorem keyword_flags_iff :
  (forall t kw : text, has_kwarg t kw = true <-> KwAssign kw t)
  /\ (forall (content g : text) (sp : nat) (r : route),
        analyze_site content (g, sp) = Some r ->
        (has_response_model r = true <-> KwAssign (lit "response_model") (decorator_args r))
        /\ (has_tags r = true <-> KwAssign (lit "tags") (decorator_args r))
        /\ (has_summary r = true <-> KwAssign (lit "summary") (decorator_args r))
        /\ (has_description r = true <-> KwAssign (lit "description") (decorator_args r))).
Proof.
  split; [exact has_kwarg_iff|].
  intros content g sp r H.
  destruct (analyze_site_some _ _ _ _ H) as (i & d & _ & _ & _ & _ & H1 & H2 & H3 & H4 & _).
  rewrite H1, H2, H3, H4; repeat split; apply has_kwarg_iff; assumption.
Qed.

Lemma keyword_flags_iff_witness :
  analyze_site demo_content (lit "get", 9%nat) = Some demo_route
  /\ (has_tags demo_route = true <-> KwAssign (lit "tags") (decorator_args demo_route)).
Proof.
  split; [vm_compute; reflexivity|].
  apply (proj2 keyword_flags_iff demo_content (lit "get") 9%nat demo_route).
  vm_compute; reflexivity.
Defined.

(** ** The nesting counter *)

Definition delta (c : ascii) : Z :=
  if (c =? "(")%char then 1 else if (c =? ")")%char then -1 else 0.

Fixpoint bal (l : text) : Z :=
  match l with [] => 0 | c :: r => delta c + bal r end.

(** The counter after the characters [content[sp:k]], started at 1. *)
Definition depth_at (content : text) (sp k : nat) : Z := 1 + bal (slice content sp k).

(** [content[j]] is the parenthesis closing the one just before [sp]: the
    counter reaches 0 on it and not earlier. *)
Definition matching_close (content : text) (sp j : nat) : Prop :=
  (sp <= j < length content)%nat /\ nth_error content j = Some ")"%char
  /\ depth_at content sp (S j) = 0
  /\ forall k, (sp <= k < j)%nat -> 0 < depth_at content sp (S k).

Definition matching_close_b (content : text) (sp j : nat) : bool :=
  ((sp <=? j) && (j <? length content))%nat
  && match nth_error content j with Some c => (c =? ")")%char | None => false end
  && (depth_at content sp (S j) =? 0)
  && forallb (fun k => 0 <? depth_at content sp (S k)) (seq sp (j - sp)).

Lemma matching_close_b_sound (content : text) (sp j : nat) :
  matching_close_b content sp j = true -> matching_close content sp j.
Proof.
  unfold matching_close_b; rewrite !andb_true_iff.
  intros ((((H1 & H2) & H3) & H4) & H5).
  apply Nat.leb_le in H1; apply Nat.ltb_lt in H2; apply Z.eqb_eq in H4.
  rewrite forallb_forall in H5.
  repeat split; try lia; auto.
  - destruct (nth_error content j) as [c|]; [|discriminate].
    apply Ascii.eqb_eq in H3; now subst.
  - intros k Hk; apply Z.ltb_lt, H5, in_seq; lia.
Qed.

Lemma matching_close_In (content : text) (sp j : nat) :
  matching_close content sp j -> In ")"%char content.
Proof. intros (_ & H & _); eapply nth_error_In; eauto. Qed.

Lemma bal_app (l1 l2 : text) : bal (l1 ++ l2) = bal l1 + bal l2.
Proof. induction l1 as [|c l IH]; cbn; [reflexivity | rewrite IH; ring]. Qed.

Lemma firstn_S_nth (l : text) (n : nat) (c : ascii) :
  nth_error l n = Some c -> firstn (S n) l = firstn n l ++ [c].
Proof.
  revert n; induction l as [|x l IH]; intros [|n]; cbn; try discriminate.
  - intro H; inversion H; reflexivity.
  - intro H; specialize (IH n H); cbn in IH |- *; now rewrite IH.
Qed.

Lemma depth_at_start (content : text) (sp : nat) : depth_at content sp sp = 1.
Proof. unfold depth_at, slice; rewrite Nat.sub_diag; reflexivity. Qed.

Lemma depth_at_S (content : text) (sp k : nat) (c : ascii) :
  (sp <= k)%nat -> nth_error content k = Some c ->
  depth_at content sp (S k) = depth_at content sp k + delta c.
Proof.
  intros Hk Hc; unfold depth_at, slice.
  replace (S k - sp)%nat with (S (k - sp)) by lia.
  rewrite (firstn_S_nth _ _ c), bal_app.
  - replace (bal [c]) with (delta c) by (cbn; ring); ring.
  - rewrite nth_error_skipn; replace (sp + (k - sp))%nat with k by lia; exact Hc.
Qed.

Lemma scan_loop_result (content : text) (sp : nat) :
  forall fuel i d, (sp <= i)%nat -> Z.of_nat d = depth_at content sp i ->
  (length content - i < fuel)%nat ->
  exists i' d', scan_loop fuel content i d = Some (i', d')
    /\ (i <= i')%nat
    /\ Z.of_nat d' = depth_at content sp i'
    /\ (forall k, (i <= k < i')%nat -> (k < length content)%nat /\ 0 < depth_at content sp k)
    /\ ((length content <= i')%nat \/ d' = 0%nat)
    /\ (i' <= Nat.max i (length content))%nat.
Proof.
  induction fuel as [|f IH]; intros i d Hi Hd Hf; [lia|].
  cbn [scan_loop].
  destruct ((i <? length content) && (0 <? d))%nat eqn:Eg.
  - apply andb_true_iff in Eg as (E1 & E2).
    apply Nat.ltb_lt in E1; apply Nat.ltb_lt in E2.
    destruct (nth_error content i) as [c|] eqn:Ec;
      [|apply nth_error_None in Ec; lia].
    set (d' := if (c =? "(")%char then S d else if (c =? ")")%char then (d - 1)%nat else d).
    assert (Hd' : Z.of_nat d' = depth_at content sp (S i)).
    { rewrite (depth_at_S _ _ _ c Hi Ec), <- Hd; unfold d', delta.
      destruct (c =? "(")%char; [lia|]; destruct (c =? ")")%char; lia. }
    destruct (IH (S i) d' ltac:(lia) Hd' ltac:(lia))
      as (i' & d'' & Hs & H1 & H2 & H3 & H4 & H5).
    exists i', d''; split; [exact Hs|]; split; [lia|]; split; [exact H2|].
    split; [|split; [exact H4|lia]].
    intros k Hk; destruct (Nat.eq_dec k i) as [->|Hne]; [lia|]; apply H3; lia.
  - exists i, d; repeat split; auto; try lia.
    apply andb_false_iff in Eg as [E|E];
      [apply Nat.ltb_ge in E; left; lia | apply Nat.ltb_ge in E; right; lia].
Qed.

Lemma delta_close (c : ascii) : delta c = -1 -> c = ")"%char.
Proof.
  unfold delta; destruct (c =? "(")%char; [discriminate|].
  destruct (c =? ")")%char eqn:E; [intros _; now apply Ascii.eqb_eq | discriminate].
Qed.

Lemma delta_range (c : ascii) : -1 <= delta c <= 1.
Proof. unfold delta; destruct (c =? "(")%char; [lia|]; destruct (c =? ")")%char; lia. Qed.

Definition scan_fuel (content : text) (sp : nat) : nat := S (length content - sp).

Lemma scan_closed (content : text) (sp j : nat) :
  matching_close content sp j ->
  scan_loop (scan_fuel content sp) content sp 1 = Some (S j, 0%nat).
Proof.
  intros (Hj & Hc & H0 & Hpos).
  destruct (scan_loop_result content sp (scan_fuel content sp) sp 1 (le_n _)
              (eq_sym (depth_at_start _ _)) ltac:(unfold scan_fuel; lia))
    as (i' & d' & Hs & H1 & H2 & H3 & H4 & H5).
  rewrite Hs.
  assert (Hgt : (j < i')%nat).
  { destruct (Nat.lt_ge_cases j i') as [|Hle]; [assumption|].
    exfalso; destruct H4 as [H4|H4]; [lia|].
    subst d'; destruct (Nat.eq_dec i' sp) as [->|Hne].
    - rewrite depth_at_start in H2; lia.
    - specialize (Hpos (i' - 1)%nat ltac:(lia)).
      replace (S (i' - 1)) with i' in Hpos by lia; lia. }
  assert (Hle : (i' <= S j)%nat).
  { destruct (Nat.le_gt_cases i' (S j)) as [|Hlt]; [assumption|].
    destruct (H3 (S j) ltac:(lia)) as [_ Hp]; lia. }
  assert (i' = S j) by lia; subst i'.
  rewrite H0 in H2; f_equal; f_equal; lia.
Qed.

Lemma scan_unclosed (content : text) (sp : nat) :
  (sp <= length content)%nat -> (forall j, ~ matching_close content sp j) ->
  exists d, scan_loop (scan_fuel content sp) content sp 1 = Some (length content, d).
Proof.
  intros Hsp Hno.
  destruct (scan_loop_result content sp (scan_fuel content sp) sp 1 (le_n _)
              (eq_sym (depth_at_start _ _)) ltac:(unfold scan_fuel; lia))
    as (i' & d' & Hs & H1 & H2 & H3 & H4 & H5).
  destruct H4 as [H4|H4]; [exists d'; rewrite Hs; do 2 f_equal; lia|].
  exfalso; subst d'.
  destruct (Nat.eq_dec i' sp) as [->|Hne]; [rewrite depth_at_start in H2; lia|].
  set (j := (i' - 1)%nat).
  destruct (H3 j ltac:(unfold j; lia)) as [Hjl Hjp].
  destruct (nth_error content j) as [c|] eqn:Ec; [|apply nth_error_None in Ec; lia].
  pose proof (depth_at_S content sp j c ltac:(unfold j; lia) Ec) as HS.
  replace (S j) with i' in HS by (unfold j; lia).
  pose proof (delta_range c).
  assert (Hc : c = ")"%char) by (apply delta_close; lia); subst c.
  apply (Hno j); repeat split; auto; [unfold j; lia | replace (S j) with i' by (unfold j; lia); lia|].
  intros k Hk; apply H3; unfold j in *; lia.
Qed.

(** ** Totality of the per-file extraction *)

Lemma route_at_len (s g : text) (n : nat) : route_at s = Some (g, n) -> (n <= length s)%nat.
Proof.
  unfold route_at; destruct s as [|a r]; [discriminate|].
  destruct (a =? "@")%char; [|discriminate].
  destruct (span_word r) as [[|w ws] [|dot r2]]; try discriminate.
  destruct (dot =? ".")%char; [|discriminate].
  destruct (verb_paren verbs r2) as [[g' rest]|]; [|discriminate].
  intro H; injection H as _ <-; cbn [length]; destruct (length rest); lia.
Qed.

Lemma finditer_bound (fuel : nat) :
  forall s pos g e, In (g, e) (finditer_from fuel s pos) -> (e <= pos + length s)%nat.
Proof.
  induction fuel as [|f IH]; intros s pos g e; cbn; [contradiction|].
  destruct (route_at s) as [[g' n]|] eqn:E.
  - pose proof (route_at_len _ _ _ E) as Hn.
    intros [H|H]; [inversion H; lia|].
    apply IH in H; rewrite length_skipn in H; lia.
  - destruct s as [|c s']; [contradiction|].
    intro H; apply IH in H; cbn; lia.
Qed.

Lemma route_matches_bound (content g : text) (sp : nat) :
  In (g, sp) (route_matches content) -> (sp <= length content)%nat.
Proof. intro H; apply finditer_bound in H; lia. Qed.

Lemma analyze_site_total (content : text) (site : text * nat) :
  exists r, analyze_site content site = Some r.
Proof.
  destruct site as [g sp]; unfold analyze_site.
  destruct (scan_loop_result content sp (S (length content - sp)) sp 1 (le_n _)
              (eq_sym (depth_at_start _ _)) ltac:(lia))
    as (i' & d' & Hs & _).
  rewrite Hs; eauto.
Qed.

Lemma all_sites_total (content : text) (sites : list (text * nat)) :
  exists rs, all_sites content sites = Some rs /\ length rs = length sites.
Proof.
  induction sites as [|s ss IH]; cbn; [exists []; auto|].
  destruct (analyze_site_total content s) as (r & ->).
  destruct IH as (rs & -> & Hl); exists (r :: rs); cbn; auto.
Qed.

Lemma no_close_paren (content : text) :
  existsb (Ascii.eqb ")"%char) content = false -> forall sp j, ~ matching_close content sp j.
Proof.
  intros H sp j Hm; apply matching_close_In in Hm.
  assert (existsb (Ascii.eqb ")"%char) content = true)
    by (apply existsb_exists; exists ")"%char; split; [exact Hm | apply Ascii.eqb_refl]).
  congruence.
Qed.

(** A declaration split over three lines. *)
Definition multiline_content : text := py "@app.get(
    `/items`
)".

(** A declaration cut off by the end of the file. *)
Definition unclosed_content : text := py "@app.get(`/v1/items`".

(** C2 (as stated): the argument text would be exactly the text between the
    parentheses; on a declaration split over lines it is not, the
    surrounding line breaks and indentation are stripped. *)
Lemma argument_text_counterexample :
  route_matches multiline_content = [(lit "get", 9%nat)]
  /\ matching_close multiline_content 9 23
  /\ analyze_file multiline_content = Some [first_route multiline_content]
  /\ decorator_args (first_route multiline_content) = py "`/items`"
  /\ decorator_args (first_route multiline_content) <> slice multiline_content 9 23.
Proof.
  split; [vm_compute; reflexivity|].
  split; [apply matching_close_b_sound; vm_compute; reflexivity|].
  split; [vm_compute; reflexivity|].
  split; [vm_compute; reflexivity|].
  vm_compute; discriminate.
Qed.

(** C2 (amended): for a site whose argument list closes at [j], the
    argument text is [content[sp:j]] with surrounding whitespace stripped;
    [j] is where the nesting counter first returns to 0. *)
Theorem argument_text_between_parens (content g : text) (sp j : nat) (r : route) :
  analyze_site content (g, sp) = Some r -> matching_close content sp j ->
  decorator_args r = strip (slice content sp j).
Proof.
  intros H Hm.
  destruct (analyze_site_some _ _ _ _ H) as (i & d & Hs & Ha & _).
  pose proof (scan_closed _ _ _ Hm) as Hc; unfold scan_fuel in Hc.
  rewrite Hc in Hs; inversion Hs; subst i.
  rewrite Ha; replace (S j - 1)%nat with j by lia; reflexivity.
Qed.

Lemma argument_text_between_parens_witness :
  analyze_site demo_content (lit "get", 9%nat) = Some demo_route
  /\ matching_close demo_content 9 57
  /\ decorator_args demo_route = strip (slice demo_content 9 57).
Proof.
  assert (H1 : analyze_site demo_content (lit "get", 9%nat) = Some demo_route)
    by (vm_compute; reflexivity).
  assert (H2 : matching_close demo_content 9 57)
    by (apply matching_close_b_sound; vm_compute; reflexivity).
  split; [exact H1|]; split; [exact H2|].
  exact (argument_text_between_parens demo_content (lit "get") 9 57 demo_route H1 H2).
Defined.

Lemma firstn_pred_length (l : text) : firstn (length l - 1) l = removelast l.
Proof.
  induction l as [|x l IH]; [reflexivity|].
  destruct l as [|y l]; [reflexivity|].
  cbn [length] in *.
  replace (S (S (length l)) - 1)%nat with (S (S (length l) - 1)) by lia.
  cbn [firstn]; rewrite IH; reflexivity.
Qed.

(** C7 (code bug): extraction of a file never fails and yields one record
    per matched site, but for a site whose argument list never closes the
    argument text is the remaining text without its last character: the
    slice [content[arg_start:i-1]] ends one character early as if a closing
    parenthesis had been read.  On [@app.get(`/v1/items`] at the end of a
    file the literal loses its closing quote and the path is [UNKNOWN]. *)
Theorem unclosed_site_drops_last_char :
  (forall content : text,
      exists rs, analyze_file content = Some rs
                 /\ length rs = length (route_matches content))
  /\ (forall (content g : text) (sp : nat),
        In (g, sp) (route_matches content) ->
        (forall j, ~ matching_close content sp j) ->
        exists r, analyze_site content (g, sp) = Some r
          /\ decorator_args r = strip (removelast (skipn sp content)))
  /\ route_matches unclosed_content = [(lit "get", 9%nat)]
  /\ (forall j, ~ matching_close unclosed_content 9 j)
  /\ skipn 9 unclosed_content = py "`/v1/items`"
  /\ decorator_args (first_route unclosed_content) = py "`/v1/items"
  /\ path (first_route unclosed_content) = lit "UNKNOWN".
Proof.
  split; [intro content; apply all_sites_total|].
  split.
  - intros content g sp Hin Hno.
    pose proof (route_matches_bound _ _ _ Hin) as Hb.
    destruct (scan_unclosed content sp Hb Hno) as (d & Hs).
    destruct (analyze_site_total content (g, sp)) as (r & Hr).
    exists r; split; [exact Hr|].
    destruct (analyze_site_some _ _ _ _ Hr) as (i & d' & Hs' & Ha & _).
    unfold scan_fuel in Hs; rewrite Hs in Hs'; inversion Hs'; subst i.
    rewrite Ha, <- firstn_pred_length, length_skipn; unfold slice.
    replace (length content - 1 - sp)%nat with (length content - sp - 1)%nat by lia.
    reflexivity.
  - split; [vm_compute; reflexivity|].
    split; [apply no_close_paren; vm_compute; reflexivity|].
    repeat split; vm_compute; reflexivity.
Qed.

(** ** Empty path literals *)

Lemma search_kw_lit_cons (kw t : text) (c : ascii) :
  kw_lit_at kw (c :: t) = None -> search_kw_lit kw (c :: t) = search_kw_lit kw t.
Proof. intro H; cbn [search_kw_lit]; now rewrite H. Qed.

Lemma search_path_skip (w t : text) :
  (forall c, In c w -> c <> "p"%char) ->
  search_kw_lit (lit "path") (w ++ t) = search_kw_lit (lit "path") t.
Proof.
  induction w as [|c w IH]; intro Hw; [reflexivity|].
  cbn [app search_kw_lit].
  assert (Hk : kw_lit_at (lit "path") (c :: w ++ t) = None).
  { unfold kw_lit_at; cbn [lit list_ascii_of_string strip_prefix].
    destruct ("p" =? c)%char eqn:E; [|reflexivity].
    apply Ascii.eqb_eq in E; destruct (Hw c (or_introl eq_refl)); auto. }
  rewrite Hk; apply IH; intros x Hx; apply Hw; right; exact Hx.
Qed.

Lemma search_none_of_no_KwLit (kw t : text) :
  (forall v, ~ KwLit kw t v) -> search_kw_lit kw t = None.
Proof.
  intro H; destruct (search_kw_lit kw t) as [v|] eqn:E; [|reflexivity].
  destruct (H v (search_kw_lit_KwLit _ _ _ E)).
Qed.

Lemma space_not_p (c : ascii) : is_space c = true -> c <> "p"%char.
Proof. intros H ->; discriminate. Qed.

Lemma quote_not_p (c : ascii) : is_quote c = true -> c <> "p"%char.
Proof. intros H ->; discriminate. Qed.

Lemma all_space_not_p (ws : text) : all_space ws -> forall c, In c ws -> c <> "p"%char.
Proof.
  intros H c Hc; apply space_not_p; unfold all_space in H.
  rewrite Forall_forall in H; auto.
Qed.

(** Shape of the argument text with an empty path literal in front. *)
Definition EmptyPathFront (t rest : text) : Prop :=
  exists q1 q2 ws1 ws2, is_quote q1 = true /\ is_quote q2 = true
    /\ all_space ws1 /\ all_space ws2
    /\ (t = q1 :: q2 :: rest
        \/ t = lit "path" ++ ws1 ++ "="%char :: ws2 ++ q1 :: q2 :: rest).

Lemma extract_path_empty_front (t rest : text) :
  EmptyPathFront t rest -> (forall v, ~ KwLit (lit "path") rest v) ->
  extract_string_arg t (lit "path") = None.
Proof.
  intros (q1 & q2 & ws1 & ws2 & Hq1 & Hq2 & Hw1 & Hw2 & Ht) Hno.
  pose proof (search_none_of_no_KwLit _ _ Hno) as Hr.
  unfold extract_string_arg.
  destruct (list_eq_dec ascii_dec (lit "path") (lit "path")) as [_|Hne];
    [|destruct (Hne eq_refl)].
  assert (Hq : forall r, span_nq (q2 :: r) = ([], q2 :: r))
    by (intro r; cbn; now rewrite Hq2).
  destruct Ht as [Ht|Ht]; rewrite Ht.
  - change (q1 :: q2 :: rest) with ([q1; q2] ++ rest) at 1.
    rewrite (search_path_skip [q1; q2] rest), Hr.
    + unfold bare_lit; rewrite drop_ws_nonspace by (now apply quote_not_space).
      cbn [quoted_at]; rewrite Hq1, Hq; reflexivity.
    + intros c [<-|[<-|[]]]; apply quote_not_p; assumption.
  - assert (Hk : kw_lit_at (lit "path") (lit "path" ++ ws1 ++ "="%char :: ws2 ++ q1 :: q2 :: rest) = None).
    { unfold kw_lit_at; rewrite strip_prefix_app, drop_ws_app by exact Hw1.
      rewrite drop_ws_nonspace by reflexivity.
      cbv beta iota; rewrite Ascii.eqb_refl, drop_ws_app by exact Hw2.
      rewrite drop_ws_nonspace by (now apply quote_not_space).
      cbn [quoted_at]; rewrite Hq1, Hq; reflexivity. }
    cbn [lit list_ascii_of_string app] in Hk |- *; rewrite (search_kw_lit_cons _ _ _ Hk).
    replace ("a"%char :: "t"%char :: "h"%char :: ws1 ++ "="%char :: ws2 ++ q1 :: q2 :: rest)
      with (("a"%char :: "t"%char :: "h"%char :: ws1 ++ "="%char :: ws2 ++ [q1; q2]) ++ rest)
      by (cbn; repeat (rewrite <- app_assoc || rewrite <- app_comm_cons); reflexivity).
    rewrite search_path_skip, Hr.
    + reflexivity.
    + intros c Hc; cbn in Hc.
      destruct Hc as [<-|[<-|[<-|Hc]]]; try discriminate.
      apply in_app_or in Hc as [Hc|[<-|Hc]]; [now apply (all_space_not_p ws1)|discriminate|].
      apply in_app_or in Hc as [Hc|[<-|[<-|[]]]];
        [now apply (all_space_not_p ws2) | apply quote_not_p; assumption
        | apply quote_not_p; assumption].
Qed.

(** [kw], optional whitespace, [=], optional whitespace and a quoted
    literal [v], at the very start of [s]. *)
Definition KwLitAt (kw s v : text) : Prop :=
  exists ws1 ws2 s', s = kw ++ ws1 ++ "="%char :: ws2 ++ s'
    /\ all_space ws1 /\ all_space ws2 /\ QuotedLit s' v.

(** [t] is [pre], then an empty quoted literal given as the path, then
    [rest]: either a bare empty literal at the very start of [t] or an
    empty literal assigned to [path=] anywhere. *)
Definition EmptyPathAt (t pre rest : text) : Prop :=
  exists q1 q2 ws1 ws2, is_quote q1 = true /\ is_quote q2 = true
    /\ all_space ws1 /\ all_space ws2
    /\ ((pre = [] /\ t = q1 :: q2 :: rest)
        \/ t = pre ++ lit "path" ++ ws1 ++ "="%char :: ws2 ++ q1 :: q2 :: rest).

Lemma search_skip_prefix (kw pre z : text) :
  (forall k, (k < length pre)%nat -> kw_lit_at kw (skipn k (pre ++ z)) = None) ->
  search_kw_lit kw (pre ++ z) = search_kw_lit kw z.
Proof.
  induction pre as [|c pre IH]; intro H; [reflexivity|].
  cbn [app search_kw_lit].
  pose proof (H 0%nat ltac:(cbn; lia)) as H0; cbn [skipn app] in H0; rewrite H0.
  apply IH; intros k Hk; exact (H (S k) ltac:(cbn; lia)).
Qed.

Lemma no_KwLitAt_prefix (kw t : text) (n : nat) :
  (forall k v, (k < n)%nat -> ~ KwLitAt kw (skipn k t) v) ->
  forall k, (k < n)%nat -> kw_lit_at kw (skipn k t) = None.
Proof.
  intros H k Hk; destruct (kw_lit_at kw (skipn k t)) as [v|] eqn:E; [|reflexivity].
  apply kw_lit_at_iff in E; destruct (H k v Hk E).
Qed.

Lemma no_KwLitAt_of_forallb (kw t : text) (n : nat) :
  forallb (fun k => match kw_lit_at kw (skipn k t) with Some _ => false | None => true end)
          (seq 0 n) = true ->
  forall k v, (k < n)%nat -> ~ KwLitAt kw (skipn k t) v.
Proof.
  intros H k v Hk Hv; rewrite forallb_forall in H.
  specialize (H k ltac:(apply in_seq; lia)).
  apply kw_lit_at_iff in Hv; rewrite Hv in H; discriminate.
Qed.

Lemma extract_empty_path_at (t pre rest : text) :
  drop_ws t = t ->
  EmptyPathAt t pre rest ->
  (forall k v, (k < length pre)%nat -> ~ KwLitAt (lit "path") (skipn k t) v) ->
  (forall v, ~ KwLit (lit "path") rest v) ->
  (forall v, ~ QuotedLit t v) ->
  extract_string_arg t (lit "path") = None.
Proof.
  intros Hd (q1 & q2 & ws1 & ws2 & Hq1 & Hq2 & Hw1 & Hw2 & [[Hp Ht]|Ht]) Hpre Hrest Hq.
  - apply (extract_path_empty_front t rest); [|exact Hrest].
    exists q1, q2, ws1, ws2; repeat split; auto.
  - set (z := lit "path" ++ ws1 ++ "="%char :: ws2 ++ q1 :: q2 :: rest) in Ht.
    assert (Hz : extract_string_arg z (lit "path") = None).
    { apply (extract_path_empty_front z rest); [|exact Hrest].
      exists q1, q2, ws1, ws2; repeat split; auto. }
    assert (Hsz : search_kw_lit (lit "path") z = None).
    { unfold extract_string_arg in Hz; destruct (search_kw_lit _ z); [discriminate|reflexivity]. }
    assert (Hs : search_kw_lit (lit "path") t = None).
    { rewrite Ht, search_skip_prefix; [exact Hsz|].
      rewrite <- Ht; apply no_KwLitAt_prefix; exact Hpre. }
    unfold extract_string_arg; rewrite Hs.
    destruct (list_eq_dec ascii_dec (lit "path") (lit "path")) as [_|Hne];
      [|destruct (Hne eq_refl)].
    unfold bare_lit; rewrite Hd.
    destruct (quoted_at t) as [v|] eqn:E; [|reflexivity].
    apply quoted_at_iff in E; destruct (Hq v E).
Qed.

(** A declaration with an empty positional path whose description mentions
    a [path=] assignment. *)
Definition empty_path_content : text :=
  py "@app.get(``, description='Alias of path=`/v1/items`')".

(** A positional path followed by an empty [path=] keyword. *)
Definition positional_then_empty_content : text := py "@app.get('x', path=``)".

(** An empty [path=] keyword after another keyword. *)
Definition empty_kw_path_content : text := py "@app.get(response_model=X, path=``)".

(** C10 (as stated): an empty path argument would always give [UNKNOWN];
    a [path=] literal elsewhere in the argument text (here inside the
    description) is taken instead, and it is even versioned; and a
    positional literal in front of an empty [path=] is taken as the
    path. *)
Lemma empty_path_literal_counterexample :
  analyze_file empty_path_content = Some [first_route empty_path_content]
  /\ firstn 2 (decorator_args (first_route empty_path_content)) = py "``"
  /\ path (first_route empty_path_content) = lit "/v1/items"
  /\ versioned (first_route empty_path_content) = true
  /\ analyze_file positional_then_empty_content = Some [first_route positional_then_empty_content]
  /\ path (first_route positional_then_empty_content) = lit "x".
Proof. repeat split; vm_compute; reflexivity. Qed.

(** C10 (amended): an empty quoted literal is never taken as the path.
    When the argument text holds an empty literal given as the path (a
    bare one at the very start, or one assigned to [path=] anywhere), no
    non-empty [path=] literal assignment starts before it or occurs after
    it, and the text does not start with a non-empty quoted literal, the
    path is [UNKNOWN] and the route is not versioned. *)
Theorem empty_path_literal_unknown (content g : text) (sp : nat) (r : route)
    (pre rest : text) :
  analyze_site content (g, sp) = Some r ->
  EmptyPathAt (decorator_args r) pre rest ->
  (forall k v, (k < length pre)%nat -> ~ KwLitAt (lit "path") (skipn k (decorator_args r)) v) ->
  (forall v, ~ KwLit (lit "path") rest v) ->
  (forall v, ~ QuotedLit (decorator_args r) v) ->
  path r = lit "UNKNOWN" /\ versioned r = false.
Proof.
  intros H Hf Hpre Hrest Hq.
  destruct (analyze_site_some _ _ _ _ H) as (i & d & _ & Ha & Hp & Hv & _).
  assert (Hd : drop_ws (decorator_args r) = decorator_args r)
    by (rewrite Ha; apply drop_ws_strip).
  rewrite (extract_empty_path_at _ _ _ Hd Hf Hpre Hrest Hq) in Hp.
  split; [exact Hp|]; rewrite Hv, Hp; reflexivity.
Qed.

Lemma empty_path_literal_unknown_witness :
  analyze_site empty_kw_path_content (lit "get", 9%nat)
    = Some (first_route empty_kw_path_content)
  /\ EmptyPathAt (decorator_args (first_route empty_kw_path_content))
       (lit "response_model=X, ") []
  /\ (forall k v, (k < length (lit "response_model=X, "))%nat ->
       ~ KwLitAt (lit "path") (skipn k (decorator_args (first_route empty_kw_path_content))) v)
  /\ (forall v, ~ KwLit (lit "path") [] v)
  /\ (forall v, ~ QuotedLit (decorator_args (first_route empty_kw_path_content)) v)
  /\ path (first_route empty_kw_path_content) = lit "UNKNOWN"
  /\ versioned (first_route empty_kw_path_content) = false.
Proof.
  assert (H1 : analyze_site empty_kw_path_content (lit "get", 9%nat)
               = Some (first_route empty_kw_path_content))
    by (vm_compute; reflexivity).
  assert (H2 : EmptyPathAt (decorator_args (first_route empty_kw_path_content))
                 (lit "response_model=X, ") []).
  { exists "034"%char, "034"%char, [], [].
    split; [reflexivity|]; split; [reflexivity|]; split; [constructor|]; split; [constructor|].
    right; vm_compute; reflexivity. }
  assert (H3 : forall k v, (k < length (lit "response_model=X, "))%nat ->
                 ~ KwLitAt (lit "path")
                     (skipn k (decorator_args (first_route empty_kw_path_content))) v)
    by (apply no_KwLitAt_of_forallb; vm_compute; reflexivity).
  assert (H4 : forall v, ~ KwLit (lit "path") [] v)
    by (apply search_kw_lit_no_KwLit; reflexivity).
  assert (H5 : forall v, ~ QuotedLit (decorator_args (first_route empty_kw_path_content)) v)
    by (intros v Hv; apply quoted_at_iff in Hv; vm_compute in Hv; discriminate Hv).
  split; [exact H1|]; split; [exact H2|]; split; [exact H3|]; split; [exact H4|];
    split; [exact H5|].
  exact (empty_path_literal_unknown empty_kw_path_content (lit "get") 9%nat _ _ _
           H1 H2 H3 H4 H5).
Defined.

(** ** The aggregate score of [analyze_command] *)

(** A binary64 value [m * 2^e], kept as the pair [(m, e)]. *)
Definition float := (Z * Z)%type.

(** [n / d] rounded to the nearest integer, ties to even ([d > 0]). *)
Definition rhe (n d : Z) : Z :=
  let q := n / d in
  let r := n mod d in
  if 2 * r <? d then q
  else if d <? 2 * r then q + 1
  else if Z.even q then q else q + 1.

(** [a / (b * 2^e)] as a fraction. *)
Definition scaled (a b e : Z) : Z * Z :=
  if e <=? 0 then (a * 2 ^ (- e), b) else (a, b * 2 ^ e).

(** The binary64 value nearest to [a / b] for [a >= 0] and [b > 0]
    (53-bit significand, ties to even).  The exponent range is not bounded:
    the values met here lie between 30 and 100. *)
Definition round_bin (a b : Z) : float :=
  if a <=? 0 then (0, 0)
  else
    let e0 := Z.log2 a - Z.log2 b - 52 in
    let e := let '(n, d) := scaled a b e0 in if n / d <? 2 ^ 52 then e0 - 1 else e0 in
    let '(n, d) := scaled a b e in
    (rhe n d, e).

(** Python's [int / int]. *)
Definition true_div (a b : Z) : float := round_bin a b.

(** Python's [round(x, 1)] on a float: the exact value of [x] rounded to
    one decimal place, ties to even, read back as the nearest binary64. *)
Definition py_round1 (x : float) : float :=
  let '(m, e) := x in
  let k := if 0 <=? e then 10 * m * 2 ^ e else rhe (10 * m) (2 ^ (- e)) in
  round_bin k 10.

Definition EXIT_INTERNAL_ERROR : Z := 3.

Inductive command_outcome :=
| Exit (code : Z)
| Report (scored : list scored_route) (repo_score : float).

Definition sum_scores (scored : list scored_route) : Z :=
  fold_left (fun acc r => acc + score r) scored 0.

(** The part of [analyze_command] between [analyze_routes] and the
    reports. *)
Definition analyze_scored (routes : list route) : command_outcome :=
  match routes with
  | [] => Exit EXIT_INTERNAL_ERROR
  | _ =>
      let scored_routes := map score_route routes in
      let repo_score := py_round1 (true_div (sum_scores scored_routes)
                                            (Z.of_nat (length scored_routes))) in
      Report scored_routes repo_score
  end.

(** Equality of the values of two floats. *)
Definition fval_eqb (x y : float) : bool :=
  let '(m1, e1) := x in
  let '(m2, e2) := y in
  let e := Z.min e1 e2 in
  m1 * 2 ^ (e1 - e) =? m2 * 2 ^ (e2 - e).

Definition route_scoring (v rm t s d : bool) : route :=
  mk_route (lit "GET") (lit "/") v rm t s d [].

(** Routes scoring 85 (no summary, no description) and 90 (no tags). *)
Definition r85 : route := route_scoring true true true false false.
Definition r90 : route := route_scoring true true false true true.

(** ** Lemmas on the aggregate *)

Lemma rhe_err (n d : Z) : 0 < d -> Z.abs (2 * n - 2 * rhe n d * d) <= d.
Proof.
  intro Hd; unfold rhe.
  pose proof (Z.div_mod n d ltac:(lia)) as Hnd.
  pose proof (Z.mod_pos_bound n d Hd) as Hr.
  set (q := n / d) in *; set (r := n mod d) in *.
  destruct (2 * r <? d) eqn:E1; [apply Z.ltb_lt in E1; nia|apply Z.ltb_ge in E1].
  destruct (d <? 2 * r) eqn:E2; [apply Z.ltb_lt in E2; nia|apply Z.ltb_ge in E2].
  destruct (Z.even q); nia.
Qed.

Lemma rhe_unique (n d k : Z) : 0 < d -> Z.abs (2 * n - 2 * k * d) < d -> rhe n d = k.
Proof.
  intros Hd Hk; unfold rhe.
  pose proof (Z.div_mod n d ltac:(lia)) as Hnd.
  pose proof (Z.mod_pos_bound n d Hd) as Hr.
  set (q := n / d) in *; set (r := n mod d) in *; clearbody q r.
  assert (Hq : q = k \/ q = k - 1).
  { destruct (Z.lt_trichotomy q k) as [H|[H|H]]; [|auto|].
    - assert (q <= k - 2 \/ q = k - 1) as [H'|H'] by lia; [|auto].
      exfalso; assert (d * q <= d * (k - 2)) by (apply Z.mul_le_mono_nonneg_l; lia); nia.
    - exfalso; assert (d * (k + 1) <= d * q) by (apply Z.mul_le_mono_nonneg_l; lia); nia. }
  destruct Hq as [Hq|Hq]; subst q.
  - destruct (2 * r <? d) eqn:E1; [reflexivity|apply Z.ltb_ge in E1; nia].
  - destruct (2 * r <? d) eqn:E1; [apply Z.ltb_lt in E1; nia|].
    destruct (d <? 2 * r) eqn:E2; [lia|apply Z.ltb_ge in E2; apply Z.ltb_ge in E1; nia].
Qed.

Lemma score_route_range (r : route) : 30 <= score (score_route r) <= 100.
Proof. case_flags r; lia. Qed.

Lemma fold_scores (l : list scored_route) (acc : Z) :
  fold_left (fun acc r => acc + score r) l acc = acc + sum_scores l.
Proof.
  unfold sum_scores; revert acc; induction l as [|x l IH]; intro acc; cbn; [lia|].
  rewrite (IH (acc + score x)).
  first [rewrite (IH (0 + score x)) | rewrite (IH (score x))]; lia.
Qed.

Lemma sum_scores_range (routes : list route) :
  30 * Z.of_nat (length routes) <= sum_scores (map score_route routes)
  <= 100 * Z.of_nat (length routes).
Proof.
  induction routes as [|r rs IH]; [cbn; lia|].
  cbn [map length]; unfold sum_scores; cbn [fold_left].
  rewrite fold_scores; fold (sum_scores (map score_route rs)).
  pose proof (score_route_range r); lia.
Qed.

Lemma log2_range (s n : Z) :
  0 < n -> 16 * n <= s -> s <= 128 * n -> Z.log2 n + 4 <= Z.log2 s <= Z.log2 n + 7.
Proof.
  intros Hn H1 H2.
  pose proof (Z.log2_mul_pow2 n 4 Hn ltac:(lia)) as E4.
  pose proof (Z.log2_mul_pow2 n 7 Hn ltac:(lia)) as E7.
  replace (n * 2 ^ 4) with (16 * n) in E4 by ring.
  replace (n * 2 ^ 7) with (128 * n) in E7 by ring.
  pose proof (Z.log2_le_mono _ _ H1); pose proof (Z.log2_le_mono _ _ H2); lia.
Qed.

Lemma scaled_nonpos (a b e : Z) : e <= 0 -> scaled a b e = (a * 2 ^ (- e), b).
Proof. intro He; unfold scaled; now rewrite (proj2 (Z.leb_le e 0) He). Qed.

Lemma round_bin_mean (s n : Z) :
  0 < n -> 30 * n <= s <= 100 * n ->
  exists e, round_bin s n = (rhe (s * 2 ^ (- e)) n, e) /\ -49 <= e <= -45.
Proof.
  intros Hn Hs.
  destruct (log2_range s n Hn ltac:(lia) ltac:(lia)) as [L1 L2].
  unfold round_bin.
  rewrite (proj2 (Z.leb_gt s 0) ltac:(lia)).
  set (e0 := Z.log2 s - Z.log2 n - 52).
  rewrite (scaled_nonpos s n e0) by (unfold e0; lia).
  destruct (s * 2 ^ (- e0) / n <? 2 ^ 52).
  - rewrite scaled_nonpos by (unfold e0; lia).
    exists (e0 - 1); split; [reflexivity | unfold e0; lia].
  - rewrite scaled_nonpos by (unfold e0; lia).
    exists e0; split; [reflexivity | unfold e0; lia].
Qed.

Lemma analyze_scored_nonempty (routes : list route) :
  routes <> [] ->
  analyze_scored routes
  = Report (map score_route routes)
      (py_round1 (true_div (sum_scores (map score_route routes))
                           (Z.of_nat (length routes)))).
Proof.
  destruct routes as [|r rs]; [contradiction|]; intros _.
  unfold analyze_scored; rewrite length_map; reflexivity.
Qed.

(** Routes whose mean score is 85.35, 85.45 and 85.25. *)
Definition routes_8535 : list route := repeat r85 93 ++ repeat r90 7.
Definition routes_8545 : list route := repeat r85 91 ++ repeat r90 9.
Definition routes_8525 : list route := repeat r85 19 ++ repeat r90 1.

(** C8 (as stated): the aggregate would be the mean rounded to one decimal
    place.  When the mean lies halfway between two one-decimal values the
    binary64 quotient decides the direction: 85.35 gives 85.3 (rounding half
    up or half to even gives 85.4), 85.45 gives 85.5 (half to even or half
    down gives 85.4) and 85.25 gives 85.2 (half up or half to odd gives
    85.3), so no fixed tie rule on the mean reproduces the program. *)
Lemma aggregate_counterexample :
  sum_scores (map score_route routes_8535) = 8535 /\ length routes_8535 = 100%nat
  /\ analyze_scored routes_8535 = Report (map score_route routes_8535) (round_bin 853 10)
  /\ fval_eqb (round_bin 853 10) (round_bin 854 10) = false
  /\ sum_scores (map score_route routes_8545) = 8545 /\ length routes_8545 = 100%nat
  /\ analyze_scored routes_8545 = Report (map score_route routes_8545) (round_bin 855 10)
  /\ fval_eqb (round_bin 855 10) (round_bin 854 10) = false
  /\ sum_scores (map score_route routes_8525) = 1705 /\ length routes_8525 = 20%nat
  /\ analyze_scored routes_8525 = Report (map score_route routes_8525) (round_bin 852 10)
  /\ fval_eqb (round_bin 852 10) (round_bin 853 10) = false.
Proof. repeat split; vm_compute; reflexivity. Qed.

(** C8 (amended): with no route the command exits with
    [EXIT_INTERNAL_ERROR] before any average; otherwise (fewer than 2^40
    routes) the aggregate is the binary64 nearest to [k / 10] where [k / 10]
    is within 0.05 of the mean, and [k] is the mean times ten rounded to the
    nearest integer whenever the mean is not halfway between two one-decimal
    values. *)
Theorem aggregate_spec :
  analyze_scored [] = Exit EXIT_INTERNAL_ERROR
  /\ forall routes : list route,
       routes <> [] -> Z.of_nat (length routes) <= 2 ^ 40 ->
       let n := Z.of_nat (length routes) in
       let s := sum_scores (map score_route routes) in
       exists k,
         analyze_scored routes = Report (map score_route routes) (round_bin k 10)
         /\ Z.abs (20 * s - 2 * k * n) <= n
         /\ ((forall j, 20 * s <> (2 * j + 1) * n) -> k = rhe (10 * s) n).
Proof.
  split; [reflexivity|].
  intros routes Hne Hlen n s.
  assert (Hn : 0 < n) by (destruct routes; [contradiction|]; unfold n; cbn [length]; lia).
  pose proof (sum_scores_range routes) as Hs; fold n s in Hs.
  destruct (round_bin_mean s n Hn Hs) as (e & He & Hre).
  set (D := 2 ^ (- e)).
  assert (HD : 2 ^ 45 <= D) by (unfold D; apply Z.pow_le_mono_r; lia).
  set (m := rhe (s * D) n) in *.
  set (k := rhe (10 * m) D).
  exists k.
  assert (Hk : analyze_scored routes = Report (map score_route routes) (round_bin k 10)).
  { rewrite (analyze_scored_nonempty _ Hne); fold n s; unfold true_div; rewrite He.
    unfold py_round1; rewrite (proj2 (Z.leb_gt 0 e) ltac:(lia)); reflexivity. }
  pose proof (rhe_err (s * D) n Hn) as EA; fold m in EA.
  pose proof (rhe_err (10 * m) D ltac:(lia)) as EB; fold k in EB.
  set (A := 2 * (s * D) - 2 * m * n) in *.
  set (B := 2 * (10 * m) - 2 * k * D) in *.
  assert (Heq : D * (20 * s - 2 * k * n) = 10 * A + n * B) by (unfold A, B; ring).
  clearbody A B D m k.
  assert (Hnd : 10 * n < D) by lia.
  assert (Hb : Z.abs (20 * s - 2 * k * n) <= n).
  { apply Z.abs_le; split.
    - destruct (Z.le_gt_cases (- n) (20 * s - 2 * k * n)) as [|Hlt]; [assumption|].
      exfalso.
      assert (D * (20 * s - 2 * k * n) <= D * (- n - 1))
        by (apply Z.mul_le_mono_nonneg_l; lia).
      assert (- D <= B) by lia.
      assert (n * (- D) <= n * B) by (apply Z.mul_le_mono_nonneg_l; lia).
      nia.
    - destruct (Z.le_gt_cases (20 * s - 2 * k * n) n) as [|Hlt]; [assumption|].
      exfalso.
      assert (D * (n + 1) <= D * (20 * s - 2 * k * n))
        by (apply Z.mul_le_mono_nonneg_l; lia).
      assert (B <= D) by lia.
      assert (n * B <= n * D) by (apply Z.mul_le_mono_nonneg_l; lia).
      nia. }
  split; [exact Hk|]; split; [exact Hb|].
  intro Hnt; symmetry; apply rhe_unique; [lia|].
  assert (20 * s - 2 * k * n <> n) by (intro Hx; apply (Hnt k); lia).
  assert (20 * s - 2 * k * n <> - n) by (intro Hx; apply (Hnt (k - 1)); lia).
  apply Z.abs_lt; apply Z.abs_le in Hb; lia.
Qed.

Lemma aggregate_spec_witness :
  routes_8535 <> [] /\ Z.of_nat (length routes_8535) <= 2 ^ 40
  /\ exists k,
       analyze_scored routes_8535 = Report (map score_route routes_8535) (round_bin k 10)
       /\ Z.abs (20 * sum_scores (map score_route routes_8535)
                 - 2 * k * Z.of_nat (length routes_8535)) <= Z.of_nat (length routes_8535)
       /\ ((forall j, 20 * sum_scores (map score_route routes_8535)
                      <> (2 * j + 1) * Z.of_nat (length routes_8535)) ->
           k = rhe (10 * sum_scores (map score_route routes_8535))
                   (Z.of_nat (length routes_8535))).
Proof.
  assert (H1 : routes_8535 <> []) by discriminate.
  assert (H2 : Z.of_nat (length routes_8535) <= 2 ^ 40) by (vm_compute; discriminate).
  split; [exact H1|]; split; [exact H2|].
  exact (proj2 aggregate_spec routes_8535 H1 H2).
Defined.

(** ** The rest of [analyze_command] *)

Definition EXIT_OK : Z := 0.
Definition EXIT_SCORE_BELOW_THRESHOLD : Z := 1.
Definition EXIT_INVALID_REPO : Z := 2.

(** [x < t] for a float [x] and an integer [t], compared exactly as Python
    compares a float with an int. *)
Definition float_ltZ (x : float) (t : Z) : bool :=
  let '(m, e) := x in
  if 0 <=? e then m * 2 ^ e <? t else m <? t * 2 ^ (- e).

(** Python truthiness of an optional string option. *)
Definition truthy (o : option text) : bool :=
  match o with Some (_ :: _) => true | _ => false end.

(** The command-line options [analyze_command] reads after the scan;
    [output] and [json] are the raw strings argparse stores. *)
Record cmd_args := mk_args {
  summary_only : bool;
  no_ai : bool;
  ai_limit : Z;
  output : option text;
  json : option text;
  fail_under : option Z
}.

Section Command.

(** [advise_route] calls the external model; its text is left abstract. *)
Variable advise_route : scored_route -> text.

(** The advice loop: [remaining] counts down from [args.ai_limit]; a route
    gets advice when its score is below 100 and some budget is left. *)
Fixpoint advise_loop (remaining : Z) (rs : list scored_route)
    : list (scored_route * option text) :=
  match rs with
  | [] => []
  | r :: rs' =>
      if (score r <? 100) && (0 <? remaining)
      then (r, Some (advise_route r)) :: advise_loop (remaining - 1) rs'
      else (r, None) :: advise_loop remaining rs'
  end.

(** What a run of [analyze] produces: its exit status, the content of the
    markdown report if one was written (the routes with their advice, the
    score and whether AI advice was enabled) and whether the JSON report
    was written. *)
Record run_result := mk_run {
  exit_code : Z;
  markdown : option (list (scored_route * option text) * float * bool);
  json_written : bool
}.

(** [analyze_command] after argument parsing, with the exception handler of
    the [__main__] block around it: [repo_ok] is the directory check,
    [client_ok] whether the module-level client exists, [md_ok] and
    [json_ok] whether [open] succeeds on the markdown and JSON paths, and
    [routes] what [analyze_routes] returned; the prints are taken to
    succeed.  An exception from a report write ends the run through the
    handler with [EXIT_INTERNAL_ERROR].  When [-o] is given, [md_path] is
    the string argparse stored, so [md_path.resolve()] raises right after
    the markdown report is written, with the same exit. *)
Definition analyze_command (repo_ok client_ok md_ok json_ok : bool) (routes : list route)
    (args : cmd_args) : run_result :=
  if negb repo_ok then mk_run EXIT_INVALID_REPO None false
  else
    match analyze_scored routes with
    | Exit c => mk_run c None false
    | Report scored_routes repo_score =>
        if summary_only args then mk_run EXIT_OK None false
        else
          let ai_enabled := negb (no_ai args) && client_ok in
          let advised := if ai_enabled then advise_loop (ai_limit args) scored_routes
                         else map (fun r => (r, None)) scored_routes in
          if negb md_ok then mk_run EXIT_INTERNAL_ERROR None false
          else
            let md := Some (advised, repo_score, ai_enabled) in
            if truthy (output args) then mk_run EXIT_INTERNAL_ERROR md false
            else if truthy (json args) && negb json_ok then mk_run EXIT_INTERNAL_ERROR md false
            else
              let js := truthy (json args) in
              match fail_under args with
              | Some t =>
                  if float_ltZ repo_score t
                  then mk_run EXIT_SCORE_BELOW_THRESHOLD md js
                  else mk_run EXIT_OK md js
              | None => mk_run EXIT_OK md js
              end
    end.

End Command.

(** [len([r for r in routes if r['score'] == 100])] and the [< 100] count
    of the report header. *)
Definition count_perfect (rs : list scored_route) : nat :=
  length (filter (fun r => score r =? 100) rs).
Definition count_needs_improvement (rs : list scored_route) : nat :=
  length (filter (fun r => score r <? 100) rs).

(** ** [analyze_routes] over the walked files *)

Definition ends_with (suf s : text) : bool :=
  ((length suf <=? length s)%nat
   && if list_eq_dec ascii_dec (skipn (length s - length suf) s) suf then true else false).

(** The files [os.walk] yields, in its order: the path relative to the
    repository and the text read, [None] when [read_text] raised.  Each
    route is paired with its [file] entry. *)
Fixpoint analyze_routes (files : list (text * option text)) : option (list (text * route)) :=
  match files with
  | [] => Some []
  | (name, content) :: fs =>
      let here :=
        if ends_with (lit ".py") name then
          match content with
          | Some c => option_map (map (fun r => (name, r))) (analyze_file c)
          | None => Some []
          end
        else Some [] in
      match here, analyze_routes fs with
      | Some a, Some b => Some (a ++ b)
      | _, _ => None
      end
  end.

(** ** Lemmas on the command *)

Lemma advise_loop_exhausted (adv : scored_route -> text) (L : Z) (rs : list scored_route) :
  L <= 0 -> advise_loop adv L rs = map (fun r => (r, None)) rs.
Proof.
  intro HL; induction rs as [|r rs IH]; cbn; [reflexivity|].
  rewrite (proj2 (Z.ltb_ge 0 L) ltac:(lia)), andb_false_r, IH; reflexivity.
Qed.

Lemma map_pair_none_Forall (rs : list scored_route) :
  Forall (fun p : scored_route * option text => snd p = None) (map (fun r => (r, None)) rs).
Proof. induction rs; constructor; auto. Qed.

Lemma analyze_command_reports (adv : scored_route -> text) (client_ok json_ok : bool)
    (routes : list route) (args : cmd_args) :
  routes <> [] -> summary_only args = false -> truthy (output args) = false ->
  (truthy (json args) = false \/ json_ok = true) ->
  let repo_score := py_round1 (true_div (sum_scores (map score_route routes))
                                        (Z.of_nat (length routes))) in
  exit_code (analyze_command adv true client_ok true json_ok routes args)
  = match fail_under args with
    | Some t => if float_ltZ repo_score t then EXIT_SCORE_BELOW_THRESHOLD else EXIT_OK
    | None => EXIT_OK
    end.
Proof.
  intros Hne Hs Ho Hj; cbv zeta; unfold analyze_command; cbn [negb].
  rewrite (analyze_scored_nonempty _ Hne), Hs, Ho.
  assert (Hj' : truthy (json args) && negb json_ok = false)
    by (destruct Hj as [H|H]; rewrite H; [reflexivity | apply andb_false_r]).
  cbn [negb]; rewrite Hj'.
  destruct (fail_under args); [destruct (float_ltZ _ _)|]; reflexivity.
Qed.

Lemma rhe_ge (N d c : Z) : 0 < d -> c * d <= N -> c <= rhe N d.
Proof.
  intros Hd H; pose proof (rhe_err N d Hd) as E; apply Z.abs_le in E.
  assert (Hm : (2 * c - 1) * d < (2 * rhe N d + 1) * d) by nia.
  apply Z.mul_lt_mono_pos_r in Hm; lia.
Qed.

Lemma rhe_le (N d c : Z) : 0 < d -> N <= c * d -> rhe N d <= c.
Proof.
  intros Hd H; pose proof (rhe_err N d Hd) as E; apply Z.abs_le in E.
  assert (Hm : (2 * rhe N d - 1) * d < (2 * c + 1) * d) by nia.
  apply Z.mul_lt_mono_pos_r in Hm; lia.
Qed.

Lemma repo_score_bounds (routes : list route) :
  routes <> [] ->
  exists m e,
    py_round1 (true_div (sum_scores (map score_route routes)) (Z.of_nat (length routes)))
    = (m, e) /\ -49 <= e <= -45 /\ 30 * 2 ^ (- e) <= m <= 100 * 2 ^ (- e).
Proof.
  intro Hne.
  set (n := Z.of_nat (length routes)); set (s := sum_scores (map score_route routes)).
  assert (Hn : 0 < n) by (destruct routes; [contradiction|]; unfold n; cbn [length]; lia).
  pose proof (sum_scores_range routes) as Hs; fold n s in Hs.
  destruct (round_bin_mean s n Hn Hs) as (e & He & Hre).
  set (D := 2 ^ (- e)) in He.
  assert (HD : 0 < D) by (unfold D; apply Z.pow_pos_nonneg; lia).
  set (m := rhe (s * D) n) in He.
  assert (Hm1 : 30 * D <= m) by (apply rhe_ge; nia).
  assert (Hm2 : m <= 100 * D) by (apply rhe_le; nia).
  set (k := rhe (10 * m) D).
  assert (Hk1 : 300 <= k) by (apply rhe_ge; lia).
  assert (Hk2 : k <= 1000) by (apply rhe_le; lia).
  destruct (round_bin_mean k 10 ltac:(lia) ltac:(lia)) as (e' & He' & Hre').
  set (D' := 2 ^ (- e')) in He'.
  assert (HD' : 0 < D') by (unfold D'; apply Z.pow_pos_nonneg; lia).
  exists (rhe (k * D') 10), e'; split; [|split; [exact Hre'|split]].
  - unfold true_div; rewrite He; unfold py_round1.
    rewrite (proj2 (Z.leb_gt 0 e) ltac:(lia)); fold D; fold k; exact He'.
  - apply rhe_ge; [lia|]; fold D'; nia.
  - apply rhe_le; [lia|]; fold D'; nia.
Qed.

Lemma float_ltZ_neg (m e t : Z) : e < 0 -> float_ltZ (m, e) t = (m <? t * 2 ^ (- e)).
Proof. intro He; unfold float_ltZ; now rewrite (proj2 (Z.leb_gt 0 e) He). Qed.

(** ** Lemmas on the decorator matches *)

Lemma ci_prefix_some (w s r : text) :
  ci_prefix w s = Some r -> s = firstn (length w) s ++ r.
Proof.
  revert s; induction w as [|c w IH]; intros [|d s] H; cbn in H |- *.
  - now inversion H.
  - now inversion H.
  - discriminate.
  - destruct (c =? to_lower d)%char; [|discriminate].
    now rewrite <- (IH s H).
Qed.

Lemma verb_paren_some (vs : list text) (s g rest : text) :
  verb_paren vs s = Some (g, rest) -> exists pre, s = pre ++ "("%char :: rest.
Proof.
  induction vs as [|w vs IH]; cbn; [discriminate|].
  destruct (ci_prefix w s) as [r|] eqn:Ec; [|exact IH].
  destruct (drop_ws_spec r) as (ws & Hr & _).
  destruct (drop_ws r) as [|c r'] eqn:Ed; [exact IH|].
  destruct (c =? "(")%char eqn:Eq; [|exact IH].
  intro H; inversion H; subst g rest; apply Ascii.eqb_eq in Eq; subst c.
  pose proof (ci_prefix_some _ _ _ Ec) as Hs.
  exists (firstn (length w) s ++ ws); rewrite Hs at 1; rewrite Hr, <- app_assoc; reflexivity.
Qed.

Lemma span_word_some (r w t : text) : span_word r = (w, t) -> r = w ++ t.
Proof.
  revert w t; induction r as [|c r IH]; intros w t; cbn.
  - intro H; inversion H; reflexivity.
  - destruct (is_word c).
    + destruct (span_word r) as [w' t'] eqn:E; intro H; inversion H; subst.
      cbn; f_equal; now apply IH.
    + intro H; inversion H; reflexivity.
Qed.

Lemma route_at_some (s g : text) (n : nat) :
  route_at s = Some (g, n) ->
  exists pre rest, s = pre ++ "("%char :: rest /\ n = S (length pre).
Proof.
  unfold route_at; destruct s as [|a r]; [discriminate|].
  destruct (a =? "@")%char; [|discriminate].
  destruct (span_word r) as [[|w ws] [|dot r2]] eqn:Esw; try discriminate.
  destruct (dot =? ".")%char; [|discriminate].
  destruct (verb_paren verbs r2) as [[g' rest]|] eqn:Ev; [|discriminate].
  intro H; injection H as <- <-.
  destruct (verb_paren_some _ _ _ _ Ev) as (pre & Hpre).
  apply span_word_some in Esw.
  exists (a :: (w :: ws) ++ dot :: pre), rest.
  assert (Hs : a :: r = (a :: (w :: ws) ++ dot :: pre) ++ "("%char :: rest)
    by (rewrite Esw, Hpre; cbn; rewrite <- app_assoc; reflexivity).
  split; [exact Hs|].
  pose proof (f_equal (@length ascii) Hs) as Hl; rewrite length_app in Hl.
  cbn [length] in Hl |- *; destruct (length rest); lia.
Qed.

Lemma finditer_site (fuel : nat) :
  forall s pos g e, In (g, e) (finditer_from fuel s pos) ->
  exists a pre rest, (pos <= a)%nat /\ skipn (a - pos) s = pre ++ "("%char :: rest
    /\ e = (a + S (length pre))%nat.
Proof.
  induction fuel as [|f IH]; intros s pos g e; cbn; [contradiction|].
  destruct (route_at s) as [[g' n]|] eqn:E.
  - intros [H|H].
    + inversion H; subst g' e.
      destruct (route_at_some _ _ _ E) as (pre & rest & Hs & Hn).
      exists pos, pre, rest.
      rewrite Nat.sub_diag; cbn [skipn]; repeat split; [lia | exact Hs | lia].
    + destruct (IH _ _ _ _ H) as (a & pre & rest & Ha & Hs & He).
      exists a, pre, rest.
      rewrite skipn_skipn in Hs.
      replace (a - (pos + n) + n)%nat with (a - pos)%nat in Hs
        by (pose proof (route_at_some _ _ _ E) as (p & r & _ & Hn); lia).
      repeat split; [lia | exact Hs | exact He].
  - destruct s as [|c s']; [contradiction|].
    intro H; destruct (IH _ _ _ _ H) as (a & pre & rest & Ha & Hs & He).
    exists a, pre, rest.
    replace (a - pos)%nat with (S (a - S pos)) by lia.
    repeat split; [lia | exact Hs | exact He].
Qed.

Lemma finditer_after (fuel : nat) (s : text) (pos : nat) (g : text) (e : nat) :
  In (g, e) (finditer_from fuel s pos) -> (pos < e)%nat.
Proof.
  intro H; destruct (finditer_site _ _ _ _ _ H) as (a & pre & rest & Ha & _ & He); lia.
Qed.

Lemma finditer_sorted (fuel : nat) :
  forall s pos, Sorted lt (map snd (finditer_from fuel s pos)).
Proof.
  induction fuel as [|f IH]; intros s pos; cbn; [constructor|].
  destruct (route_at s) as [[g n]|] eqn:E.
  - cbn [map]; constructor; [apply IH|].
    destruct (finditer_from f (skipn n s) (pos + n)) as [|[g' e'] l] eqn:Ef; cbn; constructor.
    apply (finditer_after f (skipn n s) (pos + n) g'); rewrite Ef; left; reflexivity.
  - destruct s; [constructor | apply IH].
Qed.

Lemma delta_space (c : ascii) : is_space c = true -> delta c = 0.
Proof.
  unfold delta; destruct (c =? "(")%char eqn:E1.
  - apply Ascii.eqb_eq in E1; subst; discriminate.
  - destruct (c =? ")")%char eqn:E2; [apply Ascii.eqb_eq in E2; subst; discriminate | reflexivity].
Qed.

Lemma bal_drop_ws (s : text) : bal (drop_ws s) = bal s.
Proof.
  induction s as [|c s IH]; cbn; [reflexivity|].
  destruct (is_space c) eqn:E; [rewrite (delta_space c E); lia | reflexivity].
Qed.

Lemma bal_rev (s : text) : bal (rev s) = bal s.
Proof. induction s as [|c s IH]; cbn; [reflexivity|]; rewrite bal_app, IH; cbn; ring. Qed.

Lemma bal_strip (s : text) : bal (strip s) = bal s.
Proof. unfold strip; now rewrite bal_rev, bal_drop_ws, bal_rev, bal_drop_ws. Qed.

(** ** Lemmas on the file walk *)

Lemma analyze_file_total (c : text) : exists rs, analyze_file c = Some rs.
Proof. destruct (all_sites_total c (route_matches c)) as (rs & H & _); exists rs; exact H. Qed.

(** Inputs used to exercise the command theorems. *)
Definition demo_advice (r : scored_route) : text := lit "advice".
Definition demo_routes : list route := [r85; r90].

(** ** Further properties of the scoring and reporting code *)

Lemma perfect_iff_no_penalties (r : route) :
  score (score_route r) = 100 <-> penalties (score_route r) = [].
Proof. case_flags r; split; intro H; first [reflexivity | discriminate H | lia]. Qed.

(** [score_route]: a route scores 100 exactly when it has no penalty, so
    the report shows [None] as its issues exactly for the perfect routes. *)
Theorem score_route_perfect_iff_no_penalties (r : route) :
  score (score_route r) = 100 <-> penalties (score_route r) = [].
Proof. exact (perfect_iff_no_penalties r). Qed.

(** [score_route]: every score is a multiple of 5 between 30 and 100. *)
Theorem score_route_multiple_of_5 (r : route) :
  exists k, score (score_route r) = 5 * k /\ 6 <= k <= 20.
Proof.
  exists (score (score_route r) / 5).
  case_flags r; vm_compute; split; first [reflexivity | split; discriminate].
Qed.

(** [write_markdown_report]: the perfect routes and the routes needing
    improvement add up to the routes analyzed, and the perfect ones are
    those with an empty penalty list. *)
Theorem report_counts_partition (routes : list route) :
  (count_perfect (map score_route routes)
   + count_needs_improvement (map score_route routes) = length routes)%nat
  /\ count_perfect (map score_route routes)
     = length (filter (fun r => match penalties r with [] => true | _ => false end)
                      (map score_route routes)).
Proof.
  unfold count_perfect, count_needs_improvement.
  induction routes as [|r rs [IH1 IH2]]; [split; reflexivity|].
  cbn [map filter].
  pose proof (score_route_range r) as Hr.
  pose proof (perfect_iff_no_penalties r) as Hp.
  destruct (score (score_route r) =? 100) eqn:E1.
  - apply Z.eqb_eq in E1.
    rewrite (proj2 (Z.ltb_ge (score (score_route r)) 100) ltac:(lia)), (proj1 Hp E1); cbn [length].
    split; lia.
  - apply Z.eqb_neq in E1.
    rewrite (proj2 (Z.ltb_lt (score (score_route r)) 100) ltac:(lia)).
    destruct (penalties (score_route r)) eqn:Ep; [exfalso; apply E1, Hp; reflexivity|].
    cbn [length]; split; lia.
Qed.

(** The advice loop of [analyze_command]: the routes stay in order; only
    routes scoring below 100 get advice, the text [advise_route] returns
    for them; [min(max(ai_limit, 0), n)] routes get advice, [n] being the
    number of routes below 100; and once a route below 100 goes without
    advice, no later route gets any. *)
Theorem advise_loop_spec (adv : scored_route -> text) (L : Z) (rs : list scored_route) :
  map fst (advise_loop adv L rs) = rs
  /\ (forall r a, In (r, Some a) (advise_loop adv L rs) -> score r < 100 /\ a = adv r)
  /\ Z.of_nat (length (filter (fun p => match snd p with Some _ => true | None => false end)
                              (advise_loop adv L rs)))
     = Z.min (Z.max L 0) (Z.of_nat (count_needs_improvement rs))
  /\ (forall pre r post, advise_loop adv L rs = pre ++ (r, None) :: post ->
      score r < 100 -> Forall (fun p => snd p = None) post).
Proof.
  unfold count_needs_improvement.
  revert L; induction rs as [|r rs IH]; intro L.
  - split; [reflexivity|]; split; [intros r a []|]; split; [cbn; lia|].
    intros pre r post H; destruct pre; discriminate.
  - destruct (IH (L - 1)) as (A1 & A2 & A3 & A4).
    destruct (IH L) as (B1 & B2 & B3 & B4).
    cbn [advise_loop filter].
    destruct (score r <? 100) eqn:Es; destruct (0 <? L) eqn:EL; cbn [andb map fst snd filter length].
    + apply Z.ltb_lt in Es, EL.
      split; [now rewrite A1|]; split; [|split].
      * intros r0 a [H|H]; [inversion H; subst; auto | apply A2; exact H].
      * rewrite Nat2Z.inj_succ, A3; cbn [length]; rewrite Nat2Z.inj_succ; lia.
      * intros [|p pre] r0 post H Hs; inversion H; subst.
        eapply A4; eauto.
    + apply Z.ltb_lt in Es; apply Z.ltb_ge in EL.
      split; [now rewrite B1|]; split; [|split].
      * intros r0 a [H|H]; [discriminate | apply B2; exact H].
      * rewrite B3; cbn [length]; lia.
      * intros [|p pre] r0 post H Hs; inversion H; subst.
        -- rewrite advise_loop_exhausted by lia; apply map_pair_none_Forall.
        -- eapply B4; eauto.
    + apply Z.ltb_ge in Es.
      split; [now rewrite B1|]; split; [|split].
      * intros r0 a [H|H]; [discriminate | apply B2; exact H].
      * exact B3.
      * intros [|p pre] r0 post H Hs; inversion H; subst; [lia|].
        eapply B4; eauto.
    + apply Z.ltb_ge in Es.
      split; [now rewrite B1|]; split; [|split].
      * intros r0 a [H|H]; [discriminate | apply B2; exact H].
      * exact B3.
      * intros [|p pre] r0 post H Hs; inversion H; subst; [lia|].
        eapply B4; eauto.
Qed.

(** [analyze_command]: the repository score, as a binary64 value
    [m * 2^e], lies between 30 and 100. *)
Theorem repo_score_range (routes : list route) :
  routes <> [] ->
  exists m e, analyze_scored routes = Report (map score_route routes) (m, e)
    /\ e < 0 /\ 30 * 2 ^ (- e) <= m <= 100 * 2 ^ (- e).
Proof.
  intro Hne; destruct (repo_score_bounds routes Hne) as (m & e & He & Hr & Hm).
  exists m, e; split; [|split; [lia | exact Hm]].
  rewrite (analyze_scored_nonempty _ Hne), He; reflexivity.
Qed.

Lemma repo_score_range_witness :
  exists m e, analyze_scored demo_routes = Report (map score_route demo_routes) (m, e)
    /\ e < 0 /\ 30 * 2 ^ (- e) <= m <= 100 * 2 ^ (- e).
Proof. exact (repo_score_range demo_routes ltac:(discriminate)). Defined.

(** [analyze_command]: when the reports are written without error, a
    [--fail-under] threshold of 30 or less never fails the run and one
    above 100 always does. *)
Theorem fail_under_out_of_range (adv : scored_route -> text) (client_ok json_ok : bool)
    (routes : list route) (args : cmd_args) (t : Z) :
  routes <> [] -> summary_only args = false -> truthy (output args) = false ->
  (truthy (json args) = false \/ json_ok = true) ->
  fail_under args = Some t ->
  (t <= 30 -> exit_code (analyze_command adv true client_ok true json_ok routes args) = EXIT_OK)
  /\ (100 < t -> exit_code (analyze_command adv true client_ok true json_ok routes args)
                 = EXIT_SCORE_BELOW_THRESHOLD).
Proof.
  intros Hne Hs Ho Hj Ht.
  destruct (repo_score_bounds routes Hne) as (m & e & He & Hr & Hm).
  rewrite (analyze_command_reports adv client_ok json_ok routes args Hne Hs Ho Hj); cbv zeta.
  rewrite Ht, He, (float_ltZ_neg m e t ltac:(lia)).
  assert (HD : 0 < 2 ^ (- e)) by (apply Z.pow_pos_nonneg; lia).
  split; intro Hb.
  - rewrite (proj2 (Z.ltb_ge m (t * 2 ^ (- e))) ltac:(nia)); reflexivity.
  - rewrite (proj2 (Z.ltb_lt m (t * 2 ^ (- e))) ltac:(nia)); reflexivity.
Qed.

Lemma fail_under_out_of_range_witness :
  (30 <= 30 -> exit_code (analyze_command demo_advice true true true true demo_routes
                            (mk_args false false 5 None (Some (lit "r.json")) (Some 30)))
               = EXIT_OK)
  /\ (100 < 30 -> exit_code (analyze_command demo_advice true true true true demo_routes
                               (mk_args false false 5 None (Some (lit "r.json")) (Some 30)))
                  = EXIT_SCORE_BELOW_THRESHOLD).
Proof.
  exact (fail_under_out_of_range demo_advice true true demo_routes
           (mk_args false false 5 None (Some (lit "r.json")) (Some 30)) 30
           ltac:(discriminate) eq_refl eq_refl (or_intror eq_refl) eq_refl).
Defined.

(** ** Further properties of the scanner *)

(** [ROUTE_PATTERN.finditer]: the end positions of the matches strictly
    increase, and each one is just after an opening parenthesis, so the
    argument scan starts inside the call. *)
Theorem route_matches_positions (content : text) :
  Sorted lt (map snd (route_matches content))
  /\ forall g sp, In (g, sp) (route_matches content) ->
     (1 <= sp)%nat /\ nth_error content (sp - 1) = Some "("%char.
Proof.
  split; [apply finditer_sorted|].
  intros g sp H; destruct (finditer_site _ _ _ _ _ H) as (a & pre & rest & _ & Hs & He).
  rewrite Nat.sub_0_r in Hs; split; [lia|].
  replace (sp - 1)%nat with (a + length pre)%nat by lia.
  rewrite <- nth_error_skipn, Hs, nth_error_app2, Nat.sub_diag by lia; reflexivity.
Qed.

(** [analyze_routes]: when the argument list of a decorator closes, the
    recorded argument text holds as many opening as closing
    parentheses. *)
Theorem closed_args_balanced (content g : text) (sp j : nat) (r : route) :
  analyze_site content (g, sp) = Some r -> matching_close content sp j ->
  bal (decorator_args r) = 0.
Proof.
  intros H Hm.
  destruct (analyze_site_some _ _ _ _ H) as (i & d & Hs & Ha & _).
  pose proof (scan_closed _ _ _ Hm) as Hc; unfold scan_fuel in Hc.
  rewrite Hc in Hs; inversion Hs; subst i.
  rewrite Ha, bal_strip; replace (S j - 1)%nat with j by lia.
  destruct Hm as (Hj & Hn & H0 & _).
  rewrite (depth_at_S _ _ _ _ (proj1 Hj) Hn) in H0.
  unfold depth_at in H0; change (delta ")"%char) with (-1) in H0; lia.
Qed.

Lemma closed_args_balanced_witness :
  analyze_site demo_content (lit "get", 9%nat) = Some demo_route
  /\ matching_close demo_content 9 57 /\ bal (decorator_args demo_route) = 0.
Proof.
  assert (H1 : analyze_site demo_content (lit "get", 9%nat) = Some demo_route)
    by (vm_compute; reflexivity).
  assert (H2 : matching_close demo_content 9 57)
    by (apply matching_close_b_sound; vm_compute; reflexivity).
  split; [exact H1|]; split; [exact H2|].
  exact (closed_args_balanced _ _ _ _ _ H1 H2).
Defined.

(** [analyze_routes]: the walk never fails, and every route it reports
    comes from a readable file whose name ends in [.py] and is one of the
    routes of that file; other files contribute nothing. *)
Theorem analyze_routes_provenance (files : list (text * option text)) :
  exists rs, analyze_routes files = Some rs
    /\ forall name r, In (name, r) rs ->
       ends_with (lit ".py") name = true
       /\ exists c rs', In (name, Some c) files /\ analyze_file c = Some rs' /\ In r rs'.
Proof.
  induction files as [|[name content] fs (rs & IH1 & IH2)]; cbn [analyze_routes].
  - exists []; split; [reflexivity | contradiction].
  - rewrite IH1.
    destruct (ends_with (lit ".py") name) eqn:Ee.
    + destruct content as [c|].
      * destruct (analyze_file_total c) as (rs0 & Hc); rewrite Hc; cbn [option_map].
        eexists; split; [reflexivity|].
        intros n r Hin; apply in_app_or in Hin as [Hin|Hin].
        -- apply in_map_iff in Hin as (r' & Hp & Hr'); inversion Hp; subst.
           split; [exact Ee|]; exists c, rs0; split; [left; reflexivity|]; auto.
        -- destruct (IH2 _ _ Hin) as (He & c' & rs' & Hf & Ha & Hr).
           split; [exact He|]; exists c', rs'; split; [right; exact Hf|]; auto.
      * eexists; split; [reflexivity|]; cbn [app].
        intros n r Hin; destruct (IH2 _ _ Hin) as (He & c' & rs' & Hf & Ha & Hr).
        split; [exact He|]; exists c', rs'; split; [right; exact Hf|]; auto.
    + eexists; split; [reflexivity|]; cbn [app].
      intros n r Hin; destruct (IH2 _ _ Hin) as (He & c' & rs' & Hf & Ha & Hr).
      split; [exact He|]; exists c', rs'; split; [right; exact Hf|]; auto.
Qed.
